(** * Uhale client: a shallow embedding of [src/index.ts] and [src/types.ts]

    The client is a class with two mutable fields ([sessionId], [user]); its
    methods are [async] functions that suspend at every network round-trip.
    Sequential methods ([login], [getTerminals], [uploadFile], ...) are
    embedded in a state-and-error monad over the client fields and the log of
    requests handed to [fetch].  The three [waitFor...] methods are driven by
    [setInterval]; they are embedded as a transition system whose events are
    the timer tick and the completion of an outstanding probe. *)

From Stdlib Require Import String Ascii List ZArith Bool Lia PeanoNat.
From Stdlib Require Import DecimalString.
Import ListNotations.
Open Scope string_scope.

(** ** JavaScript primitives used by the source *)

Module JS.

(** [!s] on a string: only the empty string is falsy. *)
Definition truthy (s : string) : bool := negb (s =? "").

(** [!x] on [string | null | undefined]. *)
Definition truthy_opt (x : option string) : bool :=
  match x with
  | Some s => truthy s
  | None => false
  end.

(** [a ?? b]: [None] stands for [null] and [undefined]. *)
Definition nullish {A : Type} (a : option A) (b : A) : A :=
  match a with
  | Some x => x
  | None => b
  end.

(** [n.toString()] and template interpolation of a number that is a safe
    integer (of magnitude at most 2^53 - 1), the only numbers for which the
    methods are stated: the decimal digits, with a sign when negative.
    (From 1e21 on JavaScript switches to exponent notation.) *)
Definition Z_toString (z : Z) : string := NilZero.string_of_int (Z.to_int z).

(** [xs.join(',')]. *)
Fixpoint join (sep : string) (xs : list string) : string :=
  match xs with
  | [] => ""
  | [x] => x
  | x :: rest => x ++ sep ++ join sep rest
  end.

(** The values a lookup [states[key]] in an object literal can produce,
    besides [undefined]: an own property (a string in every table of the
    source) or a member inherited from [Object.prototype]. *)
Inductive value : Type :=
| VStr (s : string)
| VInherited (name : string).

Definition value_eqb (a b : value) : bool :=
  match a, b with
  | VStr x, VStr y => x =? y
  | VInherited x, VInherited y => x =? y
  | _, _ => false
  end.

(** [a === 'lit'] *)
Definition is_str (a : value) (lit : string) : bool := value_eqb a (VStr lit).

(** Interpolation [`${v}`]; every inherited member is a native function,
    except [__proto__], which reads as the prototype object. *)
Definition display (v : value) : string :=
  match v with
  | VStr s => s
  | VInherited name =>
      if name =? "__proto__" then "[object Object]"
      else "function " ++ name ++ "() { [native code] }"
  end.

(** Property names every object literal inherits from [Object.prototype]. *)
Definition Object_prototype : list string :=
  [ "constructor"; "__defineGetter__"; "__defineSetter__"; "hasOwnProperty";
    "__lookupGetter__"; "__lookupSetter__"; "isPrototypeOf";
    "propertyIsEnumerable"; "toString"; "valueOf"; "__proto__";
    "toLocaleString" ].

Fixpoint own (table : list (string * string)) (key : string) : option string :=
  match table with
  | [] => None
  | (k, v) :: rest => if k =? key then Some v else own rest key
  end.

Definition mem (key : string) (names : list string) : bool :=
  existsb (String.eqb key) names.

(** [table[key]]: own properties first, then the prototype chain. *)
Definition get (table : list (string * string)) (key : string) : option value :=
  match own table key with
  | Some v => Some (VStr v)
  | None => if mem key Object_prototype then Some (VInherited key) else None
  end.

(** [a !== 'lit'] on [string | null | undefined]. *)
Definition strict_neq (a : option string) (lit : string) : bool :=
  match a with
  | Some s => negb (s =? lit)
  | None => true
  end.

(** Property-key conversion (and interpolation) of [string | null]. *)
Definition key_of (x : option string) : string :=
  match x with
  | Some s => s
  | None => "null"
  end.

Definition is_digit (c : ascii) : bool :=
  let n := nat_of_ascii c in (48 <=? n)%nat && (n <=? 57)%nat.

Fixpoint all_digits (s : string) : bool :=
  match s with
  | EmptyString => true
  | String c rest => is_digit c && all_digits rest
  end.

(** A numeric code as the server sends it: a non-empty string of decimal
    digits. *)
Definition numeric (s : string) : bool := negb (s =? "") && all_digits s.

End JS.

(** ** [types.ts] *)

Record UhaleOptions : Type := {
  opt_apiUrl : option string;
  opt_userUrl : option string;
  opt_secretKey : option string;
  opt_accessKey : option string
}.

Record UhaleResponse (T : Type) : Type := {
  errorCode : option string;   (* [None]: the field is absent or null *)
  errorMsg : string;
  data : T
}.
Arguments errorCode {T} _.
Arguments errorMsg {T} _.
Arguments data {T} _.

Record UhaleUser : Type := {
  token : string;
  expiresAt : Z
}.

Record UhaleUserInfo : Type := {
  ui_email : string; ui_emailBind : string; ui_fromSource : string;
  ui_groupId : string; ui_icon : string; ui_id : string; ui_nm : string;
  ui_userType : string
}.

Record UhaleLogin : Type := {
  expireAt : string;
  userInfo : UhaleUserInfo;
  userToken : string
}.

Record UhaleTerminal : Type := {
  t_availableSpace : string; t_bindState : string; t_bindTime : string;
  t_clientType : string; t_deviceId : string; t_location : string;
  t_mac : string; t_name : string; t_offlineStorage : string;
  t_offlineStorageAvailable : string; t_offlineStorageLimit : string;
  t_offlineStorageUsed : string; t_primaryAccount : string;
  t_productId : string; t_resolution : string; t_state : string;
  t_supportOfflineStorage : string; t_terminalId : string;
  t_versionCode : string
}.

Record UhalePresignedUrl : Type := {
  awsUploadUrl : string;
  fileUrl : string;
  fileId : string
}.

(** ** Requests, responses and errors *)

(** A field of a [JSON.stringify]-ed request body. *)
Inductive jfield : Type :=
| FStr (s : string)
| FNum (z : Z)
| FBool (b : bool)
| FStrs (xs : list string).

Inductive body : Type :=
| NoBody
| JsonBody (fields : list (string * jfield))
| RawBody (file : list Byte.byte).

(** The two arguments of [fetch].  [params] is the [URLSearchParams] object
    interpolated after the question mark ([None]: the URL has no query). *)
Record request : Type := {
  url : string;
  params : option (list (string * string));
  method : string;                       (* "GET" when the source gives none *)
  headers : list (string * string);
  req_body : body
}.

(** What [fetch] resolves with; [json = None] when [request.json()] rejects. *)
Record response (T : Type) : Type := {
  status : Z;
  json : option (UhaleResponse T)
}.
Arguments status {T} _.
Arguments json {T} _.

(** The type argument of [_callApi<T>] at the call sites of the source;
    [TRaw] is the response of the bare [fetch] in [uploadFile], whose body is
    never read. *)
Inductive dty : Type :=
| TString | TLogin | TPresigned | TCodes | TTerminals | TStrings | TRaw.

Definition dval (t : dty) : Type :=
  match t with
  | TString => string
  | TLogin => UhaleLogin
  | TPresigned => UhalePresignedUrl
  | TCodes => list (string * option string)   (* [Object.entries(data)] *)
  | TTerminals => list UhaleTerminal
  | TStrings => list string
  | TRaw => unit
  end.

(** Every [throw] of the source raises a plain [Error]; the constructors name
    the throw sites, [message] gives the text each one carries. *)
Inductive error : Type :=
| PreconditionError                       (* 'no session id' *)
| ValidationError                         (* 'email and password are required' *)
| ApiError (code msg : string)            (* `${errorCode}: ${errorMsg}` *)
| NetworkError                            (* rejection of fetch / json() *)
| PollFailed (terminal : string)          (* `Login ${sessionIdState}` *)
| PollTimeout                             (* 'Polling timeout' *)
| TypeError.                              (* property read on null *)

Definition message (e : error) : option string :=
  match e with
  | PreconditionError => Some "no session id"
  | ValidationError => Some "email and password are required"
  | ApiError code msg => Some (code ++ ": " ++ msg)
  | NetworkError => None
  | PollFailed terminal => Some ("Login " ++ terminal)
  | PollTimeout => Some "Polling timeout"
  | TypeError => None
  end.

(** ** The client object and the monad of its methods *)

Record Uhale : Type := {
  apiUrl : string;
  userUrl : string;
  secretKey : string;
  accessKey : string;
  sessionId : option string;
  user : option UhaleUser
}.

Definition set_sessionId (this : Uhale) (sid : option string) : Uhale :=
  {| apiUrl := apiUrl this; userUrl := userUrl this;
     secretKey := secretKey this; accessKey := accessKey this;
     sessionId := sid; user := user this |}.

Definition set_user (this : Uhale) (u : option UhaleUser) : Uhale :=
  {| apiUrl := apiUrl this; userUrl := userUrl this;
     secretKey := secretKey this; accessKey := accessKey this;
     sessionId := sessionId this; user := u |}.

(** [constructor(options?)] *)
Definition new_Uhale (options : option UhaleOptions) : Uhale :=
  let options :=
    JS.nullish options
      {| opt_apiUrl := None; opt_userUrl := None;
         opt_secretKey := None; opt_accessKey := None |} in
  {| apiUrl :=
       JS.nullish (opt_apiUrl options) "https://whalephoto.zeasn.tv/photo/api/v1/web";
     userUrl := JS.nullish (opt_userUrl options) "https://saas.zeasn.tv";
     secretKey := JS.nullish (opt_secretKey options) "10f0e356f1d0e64b18b1d02535dc45fb86";
     accessKey := JS.nullish (opt_accessKey options) "12d2f87794d58c4044a7e9d8069a955b70";
     sessionId := None;
     user := None |}.

(** The client together with the log of every request passed to [fetch],
    oldest first. *)
Record world : Type := {
  client : Uhale;
  calls : list request
}.

(** Everything outside the client.  [fetch t log req] is what the network
    answers to [req] after the requests in [log], read at the type the call
    site declares ([None]: [fetch] rejects).  The clock, the keyed hash, the
    UUID source and [Number(...)] are external collaborators. *)
Record Env : Type := {
  fetch : forall t : dty, list request -> request -> option (response (dval t));
  Date_now : list request -> Z;
  hmac_sha1_base64 : string -> string -> string;
  cache_token : list request -> string;   (* Date.now() / 1000 + randomUUID() *)
  Number : string -> Z
}.

Definition M (A : Type) : Type := world -> (error + A) * world.

Definition ret {A : Type} (a : A) : M A := fun w => (inr a, w).

Definition throw {A : Type} (e : error) : M A := fun w => (inl e, w).

Definition bind {A B : Type} (m : M A) (k : A -> M B) : M B :=
  fun w =>
    match m w with
    | (inl e, w') => (inl e, w')
    | (inr a, w') => k a w'
    end.

Declare Scope uhale_scope.
Delimit Scope uhale_scope with uhale.
Notation "x <- m ;; k" := (bind m (fun x => k))
  (at level 61, m at next level, right associativity) : uhale_scope.
Notation "m ;; k" := (bind m (fun _ => k))
  (at level 61, right associativity) : uhale_scope.
Open Scope uhale_scope.

Definition get_this : M Uhale := fun w => (inr (client w), w).

Definition put_this (u : Uhale) : M unit :=
  fun w => (inr tt, {| client := u; calls := calls w |}).

Definition get_calls : M (list request) := fun w => (inr (calls w), w).

(** The guard [if (!this.sessionId) throw new Error('no session id')] that
    opens every authenticated method; it yields the identifier the rest of
    the method reads. *)
Definition session_guard (this : Uhale) : error + string :=
  match sessionId this with
  | Some sid => if JS.truthy sid then inr sid else inl PreconditionError
  | None => inl PreconditionError
  end.

Definition require_sessionId : M string :=
  fun w =>
    match session_guard (client w) with
    | inl e => (inl e, w)
    | inr sid => (inr sid, w)
    end.

(** ** Transport: what [_callApi] does with a settled [fetch] *)

(** [await request.json()] *)
Definition response_json {T : Type} (r : response T) : error + UhaleResponse T :=
  match json r with
  | Some envelope => inr envelope
  | None => inl NetworkError
  end.

(** The envelope test of [_callApi]:
    [if (response.errorCode && response.errorCode !== '0') throw ...;
     return response.data]. *)
Definition unwrap {T : Type} (response : UhaleResponse T) : error + T :=
  if JS.truthy_opt (errorCode response) && JS.strict_neq (errorCode response) "0"
  then inl (ApiError (JS.key_of (errorCode response)) (errorMsg response))
  else inr (data response).

(** Everything [_callApi] does once [fetch] has settled. *)
Definition settle_call {T : Type} (r : option (response T)) : error + T :=
  match r with
  | None => inl NetworkError
  | Some request =>
      match response_json request with
      | inl e => inl e
      | inr response => unwrap response
      end
  end.

(** ** State tables, probe requests and decoders *)

Definition sessionIdState_table : list (string * string) :=
  [ ("0", "loggedOut"); ("1", "scanned"); ("2", "loggedIn");
    ("3", "failed"); ("4", "expired") ].

Definition getSessionIdState_request (this : Uhale) (sid : string) : request :=
  {| url := apiUrl this ++ "/sessionIdState";
     params := Some [("sessionId", sid)];
     method := "GET";
     headers := [("sessionId", sid)];
     req_body := NoBody |}.

(** [states[data] ?? 'unknown'] *)
Definition getSessionIdState_decode (data : string) : JS.value :=
  JS.nullish (JS.get sessionIdState_table data) (JS.VStr "unknown").

Definition fileState_table : list (string * string) :=
  [ ("1", "pending"); ("2", "uploaded"); ("3", "uploaded") ].

Definition _getFileState_request (this : Uhale) (sid : string)
    (fileIds : list string) : request :=
  {| url := apiUrl this ++ "/getFileState";
     params := None;
     method := "POST";
     headers := [("sessionId", sid); ("content-type", "application/json")];
     req_body := JsonBody [("fileIds", FStrs fileIds)] |}.

(** [states[fileState] ?? fileState ?? 'unknown'] *)
Definition fileState_of (fileState : option string) : JS.value :=
  JS.nullish (JS.get fileState_table (JS.key_of fileState))
    (JS.nullish (option_map JS.VStr fileState) (JS.VStr "unknown")).

(** [Object.entries(data).map(([fileId, fileState]) => [fileId, ...])] *)
Definition _getFileState_decode (data : list (string * option string))
    : list (string * JS.value) :=
  map (fun '(fileId, fileState) => (fileId, fileState_of fileState)) data.

Definition fileRevokeState_table : list (string * string) :=
  [ ("1", "pending"); ("2", "revoked") ].

Definition _getFileRevokeState_request (this : Uhale) (sid : string)
    (fileIds : list string) : request :=
  {| url := apiUrl this ++ "/revoke";
     params := Some [("fileIds", JS.join "," fileIds)];
     method := "GET";
     headers := [("sessionId", sid)];
     req_body := NoBody |}.

(** [states[fileState] ?? 'unknown'] *)
Definition fileRevokeState_of (fileState : option string) : JS.value :=
  JS.nullish (JS.get fileRevokeState_table (JS.key_of fileState))
    (JS.VStr "unknown").

Definition _getFileRevokeState_decode (data : list (string * option string))
    : list (string * JS.value) :=
  map (fun '(fileId, fileState) => (fileId, fileRevokeState_of fileState)) data.

(** ** The polling loops

    [waitForLoggedIn], [waitForFilesUploaded] and [waitForFilesRevoked] share
    one body:
<<
    new Promise((resolve, reject) => {
        let attempts = 0;
        const check = async () => {
            try {
                attempts++;
                const s = await probe();
                if (success s)           { clearInterval(interval); resolve(null); }
                else if (failure s)      { clearInterval(interval); reject(...); }
                else if (attempts >= maxAttempts)
                                         { clearInterval(interval); reject(new Error('Polling timeout')); }
            } catch (error)              { clearInterval(interval); reject(error); }
        };
        const interval = setInterval(check, 3000);
        check();
    })
>>
    and differ in the probe and in the two tests (only [waitForLoggedIn] has
    the failure branch).  A [poller] collects what differs. *)

(** [maxAttempts]: an integral number, or [Infinity] (the default of the two
    file polls).  [attempts] only takes integral values, so a fractional
    budget behaves as its ceiling; [NaN] behaves as [Infinity]. *)
Inductive budget : Type :=
| Finite (n : Z)
| Infinity.

(** [attempts >= maxAttempts] *)
Definition exhausted (attempts : nat) (maxAttempts : budget) : bool :=
  match maxAttempts with
  | Finite n => (n <=? Z.of_nat attempts)%Z
  | Infinity => false
  end.

Inductive settlement : Type :=
| Resolved
| Rejected (e : error).

Record poller : Type := {
  p_ty : dty;                                 (* type read by the probe's [_callApi] *)
  p_state : Type;                             (* what the probe returns *)
  p_request : Uhale -> string -> request;     (* the probe's request *)
  p_decode : dval p_ty -> p_state;            (* the probe's result from the data *)
  isSuccess : p_state -> bool;
  isFailure : p_state -> option error
}.

(** The variables the closure of one [waitFor...] call owns: the parameter
    [maxAttempts] it was called with, the counter, the timer and the
    promise.  A probe is named by the value of [attempts] at which it was
    started. *)
Record poll : Type := {
  max_attempts : budget;                (* the parameter [maxAttempts] *)
  attempts : nat;
  interval : bool;                      (* the timer is armed *)
  promise : option settlement;          (* [None]: still pending *)
  outstanding : list (nat * request);   (* probes awaiting their response *)
  sent : list request                   (* probe requests, oldest first *)
}.

(** A timer tick, or the network answering the probe started at [probe]. *)
Inductive event (T : Type) : Type :=
| Tick
| Answer (probe : nat) (r : option (response T)).
Arguments Tick {T}.
Arguments Answer {T} probe r.

Definition clearInterval (s : poll) : poll :=
  {| max_attempts := max_attempts s;
     attempts := attempts s; interval := false; promise := promise s;
     outstanding := outstanding s; sent := sent s |}.

(** [resolve] and [reject] settle a promise once; later calls do nothing. *)
Definition settle (o : settlement) (s : poll) : poll :=
  {| max_attempts := max_attempts s;
     attempts := attempts s; interval := interval s;
     promise := match promise s with
                | None => Some o
                | Some first => Some first
                end;
     outstanding := outstanding s; sent := sent s |}.

Fixpoint forget (probe : nat) (l : list (nat * request)) : list (nat * request) :=
  match l with
  | [] => []
  | (k, req) :: rest =>
      if Nat.eqb k probe then forget probe rest else (k, req) :: forget probe rest
  end.

Definition is_outstanding (probe : nat) (s : poll) : bool :=
  existsb (fun '(k, _) => Nat.eqb k probe) (outstanding s).

Section Polling.

Variable P : poller.
Variable this : Uhale.          (* the client, unchanged while the poll runs *)
Variable maxAttempts : budget.  (* the argument of the call, read by [start] *)

(** The body of [check] after [await]: the three-way test on a returned
    state, the [catch] block on a raised error. *)
Definition resume (result : error + p_state P) (s : poll) : poll :=
  match result with
  | inr observed =>
      if isSuccess P observed then settle Resolved (clearInterval s)
      else
        match isFailure P observed with
        | Some e => settle (Rejected e) (clearInterval s)
        | None =>
            if exhausted (attempts s) (max_attempts s)
            then settle (Rejected PollTimeout) (clearInterval s)
            else s
        end
  | inl e => settle (Rejected e) (clearInterval s)
  end.

(** The body of [check] up to [await]: count the attempt and start the
    probe.  A probe stopped by its session guard sends nothing and rejects
    at once; the [catch] block then runs before any timer or network
    event. *)
Definition check (s : poll) : poll :=
  let n := S (attempts s) in
  match session_guard this with
  | inr sid =>
      let req := p_request P this sid in
      {| max_attempts := max_attempts s;
         attempts := n; interval := interval s; promise := promise s;
         outstanding := outstanding s ++ [(n, req)];
         sent := sent s ++ [req] |}
  | inl e =>
      resume (inl e)
        {| max_attempts := max_attempts s;
           attempts := n; interval := interval s; promise := promise s;
           outstanding := outstanding s; sent := sent s |}
  end.

(** [let attempts = 0; ... const interval = setInterval(check, 3000);
    check();] in the closure that captured [maxAttempts]. *)
Definition start : poll :=
  check {| max_attempts := maxAttempts;
           attempts := 0; interval := true; promise := None;
           outstanding := []; sent := [] |}.

(** The answer to a probe, as the probe method hands it to [check]. *)
Definition probe_result (r : option (response (dval (p_ty P)))) : error + p_state P :=
  match settle_call r with
  | inl e => inl e
  | inr data => inr (p_decode P data)
  end.

(** One event of the event loop; [None] when the event cannot occur (the
    timer was cleared, or no such probe is awaiting an answer). *)
Definition step (s : poll) (ev : event (dval (p_ty P))) : option poll :=
  match ev with
  | Tick => if interval s then Some (check s) else None
  | Answer probe r =>
      if is_outstanding probe s
      then Some (resume (probe_result r)
                   {| max_attempts := max_attempts s;
                      attempts := attempts s; interval := interval s;
                      promise := promise s;
                      outstanding := forget probe (outstanding s);
                      sent := sent s |})
      else None
  end.

Fixpoint run (s : poll) (evs : list (event (dval (p_ty P)))) : option poll :=
  match evs with
  | [] => Some s
  | ev :: rest =>
      match step s ev with
      | Some s' => run s' rest
      | None => None
      end
  end.

(** A schedule in which the timer never fires while a probe is awaiting
    its answer. *)
Definition step_serial (s : poll) (ev : event (dval (p_ty P))) : option poll :=
  match ev, outstanding s with
  | Tick, _ :: _ => None
  | _, _ => step s ev
  end.

Fixpoint run_serial (s : poll) (evs : list (event (dval (p_ty P)))) : option poll :=
  match evs with
  | [] => Some s
  | ev :: rest =>
      match step_serial s ev with
      | Some s' => run_serial s' rest
      | None => None
      end
  end.

(** An answer after which the loop neither resolves nor fails on the
    state alone. *)
Definition keeps_polling (r : option (response (dval (p_ty P)))) : Prop :=
  exists observed,
    probe_result r = inr observed /\
    isSuccess P observed = false /\
    isFailure P observed = None.

Definition answers_keep_polling (ev : event (dval (p_ty P))) : Prop :=
  match ev with
  | Tick => True
  | Answer _ r => keeps_polling r
  end.

End Polling.

(** [fileStates.every(([_fileId, fileState]) => fileState === lit)] *)
Definition every_is (lit : string) (fileStates : list (string * JS.value)) : bool :=
  forallb (fun '(_, fileState) => JS.is_str fileState lit) fileStates.

Definition loggedIn_poller : poller :=
  {| p_ty := TString;
     p_state := JS.value;
     p_request := getSessionIdState_request;
     p_decode := getSessionIdState_decode;
     isSuccess := fun sessionIdState => JS.is_str sessionIdState "loggedIn";
     isFailure := fun sessionIdState =>
       if JS.is_str sessionIdState "failed" || JS.is_str sessionIdState "expired"
       then Some (PollFailed (JS.display sessionIdState))
       else None |}.

Definition uploaded_poller (fileIds : list string) : poller :=
  {| p_ty := TCodes;
     p_state := list (string * JS.value);
     p_request := fun this sid => _getFileState_request this sid fileIds;
     p_decode := _getFileState_decode;
     isSuccess := every_is "uploaded";
     isFailure := fun _ => None |}.

Definition revoked_poller (fileIds : list string) : poller :=
  {| p_ty := TCodes;
     p_state := list (string * JS.value);
     p_request := fun this sid => _getFileRevokeState_request this sid fileIds;
     p_decode := _getFileRevokeState_decode;
     isSuccess := every_is "revoked";
     isFailure := fun _ => None |}.

(** The three methods: the state in which each leaves its closure when it
    returns the promise. *)
Definition waitForLoggedIn (this : Uhale) (maxAttempts : option budget) : poll :=
  start loggedIn_poller this (JS.nullish maxAttempts (Finite 5)).

Definition waitForFilesUploaded (this : Uhale) (fileIds : list string)
    (maxAttempts : option budget) : poll :=
  start (uploaded_poller fileIds) this (JS.nullish maxAttempts Infinity).

Definition waitForFilesRevoked (this : Uhale) (fileIds : list string)
    (maxAttempts : option budget) : poll :=
  start (revoked_poller fileIds) this (JS.nullish maxAttempts Infinity).

(** ** The methods of [class Uhale] *)

Section Methods.

Variable E : Env.

(** [await fetch(url, options)]: the request is logged whether or not the
    call succeeds. *)
Definition js_fetch (t : dty) (req : request) : M (response (dval t)) :=
  fun w =>
    let w' := {| client := client w; calls := calls w ++ [req] |} in
    match fetch E t (calls w) req with
    | Some r => (inr r, w')
    | None => (inl NetworkError, w')
    end.

Definition lift {A : Type} (r : error + A) : M A := fun w => (r, w).

Definition _callApi (t : dty) (req : request) : M (dval t) :=
  request <- js_fetch t req ;;
  response <- lift (response_json request) ;;
  lift (unwrap response).

Definition _getSessionId_request (this : Uhale) (userToken : option string)
    : request :=
  let '(url, params) :=
    if JS.truthy_opt userToken
    then (apiUrl this ++ "/getSessionId", [("userToken", JS.nullish userToken "")])
    else (apiUrl this ++ "/sessionId", []) in
  {| url := url; params := Some params; method := "GET";
     headers := [("sessionId", JS.nullish (sessionId this) "")];
     req_body := NoBody |}.

Definition _getSessionId (userToken : option string) : M unit :=
  this <- get_this ;;
  data <- _callApi TString (_getSessionId_request this userToken) ;;
  this <- get_this ;;
  put_this (set_sessionId this (Some data)).

Definition getSessionIdState : M JS.value :=
  sid <- require_sessionId ;;
  this <- get_this ;;
  data <- _callApi TString (getSessionIdState_request this sid) ;;
  ret (getSessionIdState_decode data).

(** [_generateSignedToken] when the requests in [log] have been made. *)
Definition signed_token (this : Uhale) (log : list request) (path : string)
    : string :=
  let timestamp := Date_now E log in
  let signature :=
    hmac_sha1_base64 E (secretKey this) (path ++ JS.Z_toString timestamp) in
  accessKey this ++ ":" ++ signature ++ ":" ++ JS.Z_toString timestamp.

Definition _generateSignedToken (path : string) : M string :=
  this <- get_this ;;
  log <- get_calls ;;
  ret (signed_token this log path).

Definition _login_request (this : Uhale) (sid authorization : string)
    (email password : string) : request :=
  {| url := userUrl this ++ "/user/device/login";
     params := Some [("email", email); ("pwd", password)];
     method := "POST";
     headers := [ ("brandId", "7"); ("productId", "855");
                  ("sessionId", sid); ("authorization", authorization) ];
     req_body := NoBody |}.

Definition _login (email password : string) : M unit :=
  sid <- require_sessionId ;;
  this <- get_this ;;
  authorization <- _generateSignedToken "/user/device/login" ;;
  data <- _callApi TLogin (_login_request this sid authorization email password) ;;
  this <- get_this ;;
  put_this (set_user this
    (Some {| token := userToken data; expiresAt := Number E (expireAt data) |})).

(** [email] and [password] are [None] when the caller passes [undefined]
    or [null]. *)
Definition login (email password : option string) : M unit :=
  if negb (JS.truthy_opt email) || negb (JS.truthy_opt password)
  then throw ValidationError
  else
    _getSessionId None ;;
    _login (JS.nullish email "") (JS.nullish password "") ;;
    this <- get_this ;;
    match user this with
    | Some u => _getSessionId (Some (token u))
    | None => throw TypeError
    end.

Definition bool_toString (b : bool) : string := if b then "true" else "false".

Definition getPresignedUrl_request (this : Uhale) (sid : string)
    (log : list request) (isImage : bool) (fileSize : Z) (terminalId : string)
    (offlineStorage : option bool) : request :=
  {| url := apiUrl this ++ "/presignedUrl";
     params := Some
       [ ("filenameExtension", if isImage then ".jpg" else ".mp4");
         ("fileSize", JS.Z_toString fileSize);
         ("terminalId", terminalId);
         ("offlineStorage", bool_toString (JS.nullish offlineStorage false));
         ("_t", cache_token E log) ];
     method := "GET";
     headers := [("sessionId", sid)];
     req_body := NoBody |}.

Definition getPresignedUrl (isImage : bool) (fileSize : Z) (terminalId : string)
    (offlineStorage : option bool) : M UhalePresignedUrl :=
  sid <- require_sessionId ;;
  this <- get_this ;;
  log <- get_calls ;;
  _callApi TPresigned
    (getPresignedUrl_request this sid log isImage fileSize terminalId
       offlineStorage).

Definition saveUploadedFile_request (this : Uhale) (sid : string)
    (fileUrl fileId subject : string) (fileSize : Z) (terminalId : string) : request :=
  {| url := apiUrl this ++ "/file";
     params := None;
     method := "POST";
     headers := [("sessionId", sid); ("content-type", "application/json")];
     req_body := JsonBody
       [ ("fileUrl", FStr fileUrl); ("fileId", FStr fileId);
         ("fileSize", FNum fileSize); ("subject", FStr subject);
         ("terminalId", FStr terminalId) ] |}.

Definition saveUploadedFile (fileUrl fileId subject : string) (fileSize : Z)
    (terminalId : string) : M unit :=
  sid <- require_sessionId ;;
  this <- get_this ;;
  _callApi TString
    (saveUploadedFile_request this sid fileUrl fileId subject fileSize terminalId) ;;
  ret tt.

Definition _getFileState (fileIds : list string) : M (list (string * JS.value)) :=
  sid <- require_sessionId ;;
  this <- get_this ;;
  data <- _callApi TCodes (_getFileState_request this sid fileIds) ;;
  ret (_getFileState_decode data).

Definition revokeFiles (terminalId : string) (fileIds : list string)
    : M (list string) :=
  sid <- require_sessionId ;;
  this <- get_this ;;
  _callApi TStrings
    {| url := apiUrl this ++ "/revoke";
       params := None;
       method := "POST";
       headers := [("sessionId", sid); ("content-type", "application/json")];
       req_body := JsonBody
         [ ("terminalId", FStr terminalId); ("fileIds", FStrs fileIds);
           ("offlineStorage", FBool false) ] |}.

Definition _getFileRevokeState (fileIds : list string)
    : M (list (string * JS.value)) :=
  sid <- require_sessionId ;;
  this <- get_this ;;
  data <- _callApi TCodes (_getFileRevokeState_request this sid fileIds) ;;
  ret (_getFileRevokeState_decode data).

Definition getTerminals : M (list UhaleTerminal) :=
  sid <- require_sessionId ;;
  this <- get_this ;;
  _callApi TTerminals
    {| url := apiUrl this ++ "/terminal";
       params := None;
       method := "GET";
       headers := [("sessionId", sid)];
       req_body := NoBody |}.

(** [fetch(awsUploadUrl, { method: 'PUT', body: file })] *)
Definition put_request (descriptor : UhalePresignedUrl) (file : list Byte.byte)
    : request :=
  {| url := awsUploadUrl descriptor; params := None; method := "PUT";
     headers := []; req_body := RawBody file |}.

(** [uploadFile] up to and including the call of [waitForFilesUploaded]:
    the value is the identifier the method returns once that poll resolves
    (it rethrows when the poll rejects), together with the poll it awaits. *)
Definition uploadFile (isImage : bool) (file : list Byte.byte)
    (fileSize : option Z) (terminalId : string) (subject : option string)
    : M (string * poll) :=
  let subject := JS.nullish subject "" in
  require_sessionId ;;
  let fileSize := JS.nullish fileSize (Z.of_nat (length file)) in
  descriptor <- getPresignedUrl isImage fileSize terminalId None ;;
  js_fetch TRaw (put_request descriptor file) ;;
  saveUploadedFile (fileUrl descriptor) (fileId descriptor) subject fileSize
    terminalId ;;
  this <- get_this ;;
  ret (fileId descriptor, waitForFilesUploaded this [fileId descriptor] None).

End Methods.

(** * Auxiliary definitions *)

(** ** Environments used to run the methods on concrete inputs *)

Definition ok_envelope {T : Type} (d : T) : UhaleResponse T :=
  {| errorCode := Some "0"; errorMsg := ""; data := d |}.

(** A server that accepts everything; the storage behind the presigned URL
    answers the PUT with [put_status]. *)
Definition accepting (put_status : Z) : Env :=
  {| fetch := fun t _ _ =>
       match t return option (response (dval t)) with
       | TString => Some {| status := 200; json := Some (ok_envelope "sid-1") |}
       | TLogin =>
           Some {| status := 200;
                   json := Some (ok_envelope
                     {| expireAt := "1900000000";
                        userInfo := {| ui_email := "a@b.c"; ui_emailBind := "";
                                       ui_fromSource := ""; ui_groupId := "";
                                       ui_icon := ""; ui_id := "7"; ui_nm := "";
                                       ui_userType := "" |};
                        userToken := "tok-1" |}) |}
       | TPresigned =>
           Some {| status := 200;
                   json := Some (ok_envelope
                     {| awsUploadUrl := "https://s3/put"; fileUrl := "https://s3/f";
                        fileId := "file-1" |}) |}
       | TRaw => Some {| status := put_status; json := None |}
       | _ => None
       end;
     Date_now := fun _ => 1700000000000%Z;
     hmac_sha1_base64 := fun _ _ => "c2ln";
     cache_token := fun _ => "1700000000.5-uuid";
     Number := fun _ => 1900000000%Z |}.

(** The exchange endpoint rejects the credentials; everything else is
    accepted. *)
Definition rejecting_login : Env :=
  {| fetch := fun t log req =>
       match t return option (response (dval t)) with
       | TLogin =>
           Some {| status := 200;
                   json := Some {| errorCode := Some "401"; errorMsg := "bad password";
                                   data := {| expireAt := "";
                                              userInfo := {| ui_email := ""; ui_emailBind := "";
                                                             ui_fromSource := ""; ui_groupId := "";
                                                             ui_icon := ""; ui_id := ""; ui_nm := "";
                                                             ui_userType := "" |};
                                              userToken := "" |} |} |}
       | t' => fetch (accepting 200) t' log req
       end;
     Date_now := Date_now (accepting 200);
     hmac_sha1_base64 := hmac_sha1_base64 (accepting 200);
     cache_token := cache_token (accepting 200);
     Number := Number (accepting 200) |}.

Definition fresh_world : world :=
  {| client := new_Uhale None; calls := [] |}.

Definition world_with_session (sid : string) : world :=
  {| client := set_sessionId (new_Uhale None) (Some sid); calls := [] |}.

(** ** Definitions used to state the properties *)






(** The condition under which the specification says a call fails: the
    envelope carries an [errorCode] other than the sentinel "0". *)
Definition spec_api_failure {T : Type} (r : UhaleResponse T) : Prop :=
  exists code, errorCode r = Some code /\ code <> "0".

(** The condition [_callApi] tests: the [errorCode] is moreover truthy, that
    is, not the empty string. *)
Definition api_failure {T : Type} (r : UhaleResponse T) : Prop :=
  exists code, errorCode r = Some code /\ code <> "" /\ code <> "0".

Definition logged (w : world) (req : request) : world :=
  {| client := client w; calls := calls w ++ [req] |}.

(** ** Answers used to run the polls on concrete schedules *)

Definition session_code (code : string) : option (response (dval (p_ty loggedIn_poller))) :=
  Some {| status := 200; json := Some (ok_envelope code) |}.

Definition file_codes (fileIds : list string) (data : list (string * option string))
    : option (response (dval (p_ty (uploaded_poller fileIds)))) :=
  Some {| status := 200; json := Some (ok_envelope data) |}.

Definition signed_in : Uhale := set_sessionId (new_Uhale None) (Some "sid-0").

(** The timer is armed exactly as long as the promise is pending. *)
Definition timer_follows_promise (s : poll) : Prop :=
  interval s = true <-> promise s = None.

(** ** Shapes of a poll along a schedule without overlap *)

Section Shapes.

Variable P : poller.
Variable this : Uhale.
Variable sid : string.
Variable n : nat.

(** The three shapes of the closure along a schedule without overlap, for
    the budget [n]: [k] probes issued and the last one awaiting its answer,
    all [k] answered and the timer armed, or timed out after [k]. *)
Definition waiting (k : nat) (s : poll) : Prop :=
  s = {| max_attempts := Finite (Z.of_nat n);
         attempts := k; interval := true; promise := None;
         outstanding := [(k, p_request P this sid)];
         sent := repeat (p_request P this sid) k |}.

Definition idle (k : nat) (s : poll) : Prop :=
  s = {| max_attempts := Finite (Z.of_nat n);
         attempts := k; interval := true; promise := None;
         outstanding := []; sent := repeat (p_request P this sid) k |}.

Definition timed_out (k : nat) (s : poll) : Prop :=
  s = {| max_attempts := Finite (Z.of_nat n);
         attempts := k; interval := false;
         promise := Some (Rejected PollTimeout);
         outstanding := []; sent := repeat (p_request P this sid) k |}.

Definition on_budget (s : poll) : Prop :=
  (exists k, waiting k s /\ 1 <= k <= n) \/
  (exists k, idle k s /\ 1 <= k < n) \/
  timed_out n s.

(** The schedule in which every probe is answered by [r] before the next
  tick: [count] further rounds after probe [k]. *)
Fixpoint rounds (r : option (response (dval (p_ty P)))) (k count : nat)
  : list (event (dval (p_ty P))) :=
match count with
| O => []
| S count' => Tick :: Answer (S k) r :: rounds r (S k) count'
end.

Definition serial_schedule (r : option (response (dval (p_ty P))))
  : list (event (dval (p_ty P))) :=
Answer 1 r :: rounds r 1 (n - 1).

End Shapes.

(** ** The worlds [login] passes through *)

(** The world after the anonymous acquisition of [login] has stored [sid]. *)
Definition after_acquisition (w : world) (sid : string) : world :=
  {| client := set_sessionId (client w) (Some sid);
     calls := calls w ++ [_getSessionId_request (client w) None] |}.

(** The credential exchange [_login] sends from [w]. *)
Definition exchange_request (E : Env) (w : world) (sid email password : string)
    : request :=
  _login_request (client w) sid
    (signed_token E (client w) (calls w) "/user/device/login") email password.

(** The world after the exchange sent from [w] has answered [d]. *)
Definition after_exchange (E : Env) (w : world) (sid email password : string)
    (d : UhaleLogin) : world :=
  {| client := set_user (client w)
       (Some {| token := userToken d; expiresAt := Number E (expireAt d) |});
     calls := calls w ++ [exchange_request E w sid email password] |}.

(** The errors the transport itself raises. *)
Definition transport_error (e : error) : Prop :=
  e = NetworkError \/
  exists code msg, e = ApiError code msg /\ code <> "" /\ code <> "0".

(** [fileSize ?? file.length] *)
Definition resolved_size (fileSize : option Z) (file : list Byte.byte) : Z :=
  JS.nullish fileSize (Z.of_nat (length file)).

(** The codes for which a session state is tabulated. *)
Definition session_codes : list string := ["0"; "1"; "2"; "3"; "4"].

(** A poll that was stopped by the session guard of its first probe. *)
Definition stopped_poll (maxAttempts : budget) : poll :=
  {| max_attempts := maxAttempts;
     attempts := 1; interval := false;
     promise := Some (Rejected PreconditionError);
     outstanding := []; sent := [] |}.

(** The outcome of a method that made exactly one call, under the session
    identifier [sid], and failed, if at all, in the transport. *)
Definition one_call_under {A : Type} (sid : string) (w : world)
    (out : (error + A) * world) : Prop :=
  exists req,
    snd out = logged w req /\
    In ("sessionId", sid) (headers req) /\
    forall e, fst out = inl e -> transport_error e.

(** ** Further environments *)

(** No network: every [fetch] rejects. *)
Definition unreachable : Env :=
  {| fetch := fun _ _ _ => None;
     Date_now := fun _ => 0%Z;
     hmac_sha1_base64 := fun _ _ => "";
     cache_token := fun _ => "";
     Number := fun _ => 0%Z |}.

(** A server that issues [sid] as every session identifier and [tok] as the
    user token of every exchange, and answers nothing else. *)
Definition issuing (sid tok : string) : Env :=
  {| fetch := fun t _ _ =>
       match t return option (response (dval t)) with
       | TString => Some {| status := 200; json := Some (ok_envelope sid) |}
       | TLogin =>
           Some {| status := 200;
                   json := Some (ok_envelope
                     {| expireAt := "1900000000";
                        userInfo := {| ui_email := ""; ui_emailBind := "";
                                       ui_fromSource := ""; ui_groupId := "";
                                       ui_icon := ""; ui_id := ""; ui_nm := "";
                                       ui_userType := "" |};
                        userToken := tok |}) |}
       | _ => None
       end;
     Date_now := fun _ => 1700000000000%Z;
     hmac_sha1_base64 := fun _ _ => "c2ln";
     cache_token := fun _ => "1700000000.5-uuid";
     Number := fun _ => 1900000000%Z |}.

(** ** Invariants of a poll *)

(** The failure test of the poller never yields [PollTimeout] itself. *)
Definition never_fails_with_timeout (P : poller) : Prop :=
  forall observed, isFailure P observed <> Some (PollTimeout).

(** A timeout has only been declared with the budget used up. *)
Definition timeout_justified (s : poll) : Prop :=
  promise s = Some (Rejected PollTimeout) ->
  exhausted (attempts s) (max_attempts s) = true.

(** Every counted attempt has sent the same request [req], and the probes
    awaiting an answer are distinct attempts made so far. *)
Definition poll_counts (req : request) (s : poll) : Prop :=
  sent s = repeat req (attempts s) /\
  Forall (fun entry => 1 <= fst entry <= attempts s /\ snd entry = req)
    (outstanding s) /\
  NoDup (map fst (outstanding s)).

(** The ways a poll without failure test and without budget can settle. *)
Definition file_poll_settlement (o : settlement) : Prop :=
  o = Resolved \/ o = Rejected PreconditionError \/
  exists e, o = Rejected e /\ transport_error e.

(** ** The three polling methods as one family *)

(** A call of one of the three polling methods, with its arguments. *)
Inductive polling_call : Type :=
| CallLoggedIn (maxAttempts : option budget)
| CallFilesUploaded (fileIds : list string) (maxAttempts : option budget)
| CallFilesRevoked (fileIds : list string) (maxAttempts : option budget).

(** The probe and the tests of the method called. *)
Definition poller_of (c : polling_call) : poller :=
  match c with
  | CallLoggedIn _ => loggedIn_poller
  | CallFilesUploaded fileIds _ => uploaded_poller fileIds
  | CallFilesRevoked fileIds _ => revoked_poller fileIds
  end.

(** The budget the call gives ([None]: the method's default applies). *)
Definition budget_given (c : polling_call) : option budget :=
  match c with
  | CallLoggedIn maxAttempts => maxAttempts
  | CallFilesUploaded _ maxAttempts => maxAttempts
  | CallFilesRevoked _ maxAttempts => maxAttempts
  end.

(** The poll the method returns. *)
Definition call_poll (this : Uhale) (c : polling_call) : poll :=
  match c with
  | CallLoggedIn maxAttempts => waitForLoggedIn this maxAttempts
  | CallFilesUploaded fileIds maxAttempts =>
      waitForFilesUploaded this fileIds maxAttempts
  | CallFilesRevoked fileIds maxAttempts =>
      waitForFilesRevoked this fileIds maxAttempts
  end.

(** On a schedule without overlap, a probe is only ever awaiting its answer
    while the promise is pending. *)
Definition one_pending_probe (s : poll) : Prop :=
  outstanding s = [] \/
  exists k req, outstanding s = [(k, req)] /\ promise s = None.

(** [Number.isSafeInteger(z)]: the integers a JavaScript number holds
    exactly, and which [toString] prints in full decimal. *)
Definition safe_integer (z : Z) : Prop :=
  (- 9007199254740991 <= z <= 9007199254740991)%Z.

(** * Properties *)

(** ** State tables (C1) *)

Lemma numeric_not_inherited (s : string) :
  JS.numeric s = true -> JS.mem s JS.Object_prototype = false.
Proof.
  intros Hnum.
  destruct (JS.mem s JS.Object_prototype) eqn:Hmem; [|reflexivity].
  unfold JS.mem in Hmem. apply existsb_exists in Hmem.
  destruct Hmem as [name [Hin Heq]].
  apply String.eqb_eq in Heq. subst name.
  unfold JS.Object_prototype in Hin. simpl in Hin.
  repeat (destruct Hin as [Hin | Hin]; [subst s; discriminate Hnum|]).
  contradiction.
Qed.






(** ** Transport (C8) *)

Lemma unwrap_failure {T : Type} (r : UhaleResponse T) (code : string) :
  errorCode r = Some code -> code <> "" -> code <> "0" ->
  unwrap r = inl (ApiError code (errorMsg r)).
Proof.
  intros Hc Hne H0. unfold unwrap. rewrite Hc. simpl. unfold JS.truthy.
  apply String.eqb_neq in Hne, H0. now rewrite Hne, H0.
Qed.

Lemma unwrap_success {T : Type} (r : UhaleResponse T) :
  ~ api_failure r -> unwrap r = inr (data r).
Proof.
  intros Hno. unfold unwrap.
  destruct (errorCode r) as [code|] eqn:Hc; simpl; [|reflexivity].
  unfold JS.truthy.
  destruct (String.eqb_spec code ""); [reflexivity|].
  destruct (String.eqb_spec code "0"); [reflexivity|].
  exfalso. apply Hno. exists code. auto.
Qed.

Lemma _callApi_answered (E : Env) (t : dty) (req : request) (w : world)
    (resp : response (dval t)) (r : UhaleResponse (dval t)) :
  fetch E t (calls w) req = Some resp ->
  json resp = Some r ->
  _callApi E t req w = (unwrap r, {| client := client w; calls := calls w ++ [req] |}).
Proof.
  intros Hf Hj. unfold _callApi, bind, js_fetch, lift, response_json.
  rewrite Hf, Hj. destruct (unwrap r); reflexivity.
Qed.

(** C8, as stated, fails: an envelope whose [errorCode] is the empty string
    carries a code that is present and differs from "0", yet the call
    returns the data. *)
Lemma C8_empty_code_is_success :
  let r := {| errorCode := Some ""; errorMsg := "m"; data := "d" |} in
  spec_api_failure r /\ unwrap r = inr "d".
Proof.
  split; [|reflexivity]. exists "". split; [reflexivity | discriminate].
Qed.

(** C8 (amended): a call whose [fetch] yields a JSON envelope fails with an
    [ApiError] carrying the envelope's code and message if and only if the
    envelope's [errorCode] is present, non-empty and different from "0";
    otherwise it returns the envelope's [data]. *)
Theorem C8_envelope (E : Env) (t : dty) (req : request) (w : world)
    (resp : response (dval t)) (r : UhaleResponse (dval t)) :
  fetch E t (calls w) req = Some resp ->
  json resp = Some r ->
  ((exists code msg, fst (_callApi E t req w) = inl (ApiError code msg)) <->
   api_failure r) /\
  (forall code, errorCode r = Some code -> code <> "" -> code <> "0" ->
     fst (_callApi E t req w) = inl (ApiError code (errorMsg r))) /\
  (~ api_failure r -> fst (_callApi E t req w) = inr (data r)).
Proof.
  intros Hf Hj. rewrite (_callApi_answered E t req w resp r Hf Hj). simpl.
  split; [split|split].
  - intros [code [msg Hfail]].
    destruct (errorCode r) as [c|] eqn:Hc.
    + destruct (String.eqb_spec c "").
      * subst c. unfold unwrap in Hfail. rewrite Hc in Hfail. discriminate.
      * destruct (String.eqb_spec c "0").
        -- subst c. unfold unwrap in Hfail. rewrite Hc in Hfail. discriminate.
        -- exists c. auto.
    + unfold unwrap in Hfail. rewrite Hc in Hfail. discriminate.
  - intros [code [Hc [Hne H0]]]. exists code, (errorMsg r).
    now apply unwrap_failure.
  - intros code Hc Hne H0. now apply unwrap_failure.
  - apply unwrap_success.
Qed.

Lemma C8_envelope_witness :
  let req := _getSessionId_request (new_Uhale None) None in
  fst (_callApi rejecting_login TLogin req fresh_world)
    = inl (ApiError "401" "bad password") /\
  fst (_callApi (accepting 200) TString req fresh_world) = inr "sid-1".
Proof.
  intros req. split.
  - edestruct (C8_envelope rejecting_login TLogin req fresh_world)
      as [_ [Hfail _]]; [reflexivity | reflexivity |].
    apply Hfail; [reflexivity | discriminate | discriminate].
  - edestruct (C8_envelope (accepting 200) TString req fresh_world)
      as [_ [_ Hok]]; [reflexivity | reflexivity |].
    apply Hok. intros [code [Hc [Hne H0]]]. simpl in Hc.
    injection Hc as <-. now apply H0.
Defined.

(** ** Session guard (C3) and credential validation (C5) *)

Lemma require_sessionId_absent (w : world) :
  sessionId (client w) = None ->
  require_sessionId w = (inl PreconditionError, w).
Proof.
  intros Hs. unfold require_sessionId, session_guard. now rewrite Hs.
Qed.

Ltac stopped_by_guard H :=
  unfold bind; rewrite (require_sessionId_absent _ H); reflexivity.

(** C3: with no session identifier ever stored, each authenticated method
    fails with [PreconditionError] and leaves the world, hence the log of
    network calls, as it found it. *)
Theorem C3_no_session_no_call (E : Env) (w : world) :
  sessionId (client w) = None ->
  getTerminals E w = (inl PreconditionError, w) /\
  (forall isImage file fileSize terminalId subject,
     uploadFile E isImage file fileSize terminalId subject w
       = (inl PreconditionError, w)) /\
  (forall terminalId fileIds,
     revokeFiles E terminalId fileIds w = (inl PreconditionError, w)) /\
  getSessionIdState E w = (inl PreconditionError, w) /\
  (forall isImage fileSize terminalId offlineStorage,
     getPresignedUrl E isImage fileSize terminalId offlineStorage w
       = (inl PreconditionError, w)) /\
  (forall fileUrl fileId subject fileSize terminalId,
     saveUploadedFile E fileUrl fileId subject fileSize terminalId w
       = (inl PreconditionError, w)).
Proof.
  intros Hs. repeat split; intros.
  - unfold getTerminals. stopped_by_guard Hs.
  - unfold uploadFile. stopped_by_guard Hs.
  - unfold revokeFiles. stopped_by_guard Hs.
  - unfold getSessionIdState. stopped_by_guard Hs.
  - unfold getPresignedUrl. stopped_by_guard Hs.
  - unfold saveUploadedFile. stopped_by_guard Hs.
Qed.

Lemma C3_no_session_no_call_witness :
  getTerminals (accepting 200) fresh_world = (inl PreconditionError, fresh_world) /\
  calls (snd (uploadFile (accepting 200) true [] None "t-1" None fresh_world)) = [].
Proof.
  destruct (C3_no_session_no_call (accepting 200) fresh_world eq_refl)
    as [Hterm [Hup _]].
  split; [exact Hterm|]. rewrite Hup. reflexivity.
Defined.

(** C5: when [email] or [password] is empty or absent, [login] fails with
    [ValidationError] and leaves the world untouched: no request is logged,
    and [sessionId] and [user] keep their values. *)
Theorem C5_login_validation (E : Env) (email password : option string) (w : world) :
  email = None \/ email = Some "" \/ password = None \/ password = Some "" ->
  login E email password w = (inl ValidationError, w) /\
  calls (snd (login E email password w)) = calls w /\
  sessionId (client (snd (login E email password w))) = sessionId (client w) /\
  user (client (snd (login E email password w))) = user (client w).
Proof.
  intros H.
  assert (Hlogin : login E email password w = (inl ValidationError, w)).
  { unfold login.
    destruct H as [-> | [-> | [-> | ->]]]; simpl;
      try reflexivity; now rewrite orb_true_r. }
  rewrite Hlogin. auto.
Qed.

Lemma C5_login_validation_witness :
  login (accepting 200) (Some "") (Some "x") fresh_world
    = (inl ValidationError, fresh_world) /\
  login (accepting 200) (Some "x") (Some "") fresh_world
    = (inl ValidationError, fresh_world) /\
  login (accepting 200) None (Some "x") fresh_world
    = (inl ValidationError, fresh_world).
Proof.
  split; [|split].
  - apply (C5_login_validation (accepting 200) (Some "") (Some "x") fresh_world).
    right; left; reflexivity.
  - apply (C5_login_validation (accepting 200) (Some "x") (Some "") fresh_world).
    right; right; right; reflexivity.
  - apply (C5_login_validation (accepting 200) None (Some "x") fresh_world).
    left; reflexivity.
Defined.

(** ** The login sequence (C4) *)

Lemma _callApi_settles (E : Env) (t : dty) (req : request) (w : world) :
  _callApi E t req w = (settle_call (fetch E t (calls w) req), logged w req).
Proof.
  unfold _callApi, bind, js_fetch, lift, settle_call, logged.
  destruct (fetch E t (calls w) req) as [resp|]; [|reflexivity].
  destruct (response_json resp) as [e|r]; [reflexivity|].
  destruct (unwrap r); reflexivity.
Qed.

Lemma truthy_nonempty (s : string) : s <> "" -> JS.truthy s = true.
Proof.
  intros H. unfold JS.truthy. apply String.eqb_neq in H. now rewrite H.
Qed.

Lemma session_guard_stored (this : Uhale) (sid : string) :
  sid <> "" -> session_guard (set_sessionId this (Some sid)) = inr sid.
Proof.
  intros H. unfold session_guard. simpl. now rewrite (truthy_nonempty sid H).
Qed.

Lemma app_two {A : Type} (l : list A) (a b : A) : ((l ++ [a]) ++ [b] = l ++ [a; b])%list.
Proof. now rewrite <- app_assoc. Qed.

Lemma app_three {A : Type} (l : list A) (a b c : A) :
  (((l ++ [a]) ++ [b]) ++ [c] = l ++ [a; b; c])%list.
Proof. now rewrite <- !app_assoc. Qed.

Lemma _getSessionId_ok (E : Env) (userToken : option string) (w : world)
    (data : string) :
  settle_call (fetch E TString (calls w) (_getSessionId_request (client w) userToken))
    = inr data ->
  _getSessionId E userToken w
  = (inr tt,
     {| client := set_sessionId (client w) (Some data);
        calls := (calls w ++ [_getSessionId_request (client w) userToken])%list |}).
Proof.
  intros H. unfold _getSessionId, bind, get_this.
  rewrite _callApi_settles, H. reflexivity.
Qed.

Lemma _getSessionId_calls (E : Env) (userToken : option string) (w : world) :
  calls (snd (_getSessionId E userToken w))
  = (calls w ++ [_getSessionId_request (client w) userToken])%list.
Proof.
  unfold _getSessionId, bind, get_this. rewrite _callApi_settles.
  destruct (settle_call _); reflexivity.
Qed.

Lemma _login_ok (E : Env) (email password sid : string) (w : world)
    (d : UhaleLogin) :
  session_guard (client w) = inr sid ->
  settle_call (fetch E TLogin (calls w)
    (_login_request (client w) sid
       (signed_token E (client w) (calls w) "/user/device/login") email password))
    = inr d ->
  _login E email password w
  = (inr tt,
     {| client := set_user (client w)
          (Some {| token := userToken d; expiresAt := Number E (expireAt d) |});
        calls := (calls w ++
          [_login_request (client w) sid
             (signed_token E (client w) (calls w) "/user/device/login")
             email password])%list |}).
Proof.
  intros Hguard H.
  unfold _login, bind, require_sessionId, get_this, _generateSignedToken,
    bind, get_this, get_calls, ret.
  rewrite Hguard. rewrite _callApi_settles, H. reflexivity.
Qed.

Lemma _login_err (E : Env) (email password sid : string) (w : world)
    (err : error) :
  session_guard (client w) = inr sid ->
  settle_call (fetch E TLogin (calls w)
    (_login_request (client w) sid
       (signed_token E (client w) (calls w) "/user/device/login") email password))
    = inl err ->
  _login E email password w
  = (inl err,
     logged w
       (_login_request (client w) sid
          (signed_token E (client w) (calls w) "/user/device/login")
          email password)).
Proof.
  intros Hguard H.
  unfold _login, bind, require_sessionId, get_this, _generateSignedToken,
    bind, get_this, get_calls, ret.
  rewrite Hguard. rewrite _callApi_settles, H. reflexivity.
Qed.

Lemma login_valid (E : Env) (email password : string) (w : world) :
  email <> "" -> password <> "" ->
  login E (Some email) (Some password) w
  = (_getSessionId E None ;;
     _login E email password ;;
     this <- get_this ;;
     match user this with
     | Some u => _getSessionId E (Some (token u))
     | None => throw TypeError
     end) w.
Proof.
  intros He Hp. unfold login. cbn [JS.truthy_opt JS.nullish].
  now rewrite (truthy_nonempty email He), (truthy_nonempty password Hp).
Qed.

(** C4, as stated, fails: when the exchange answers with an empty user
    token, every call succeeds and [login] resolves, yet its third request
    is a second anonymous acquisition ([/sessionId], no [userToken]
    parameter), not an authenticated one. *)
Lemma C4_empty_token_no_authenticated_acquisition :
  let out := login (issuing "sid-1" "") (Some "a@b.c") (Some "pw") fresh_world in
  fst out = inr tt /\
  map url (calls (snd out))
  = [ "https://whalephoto.zeasn.tv/photo/api/v1/web/sessionId";
      "https://saas.zeasn.tv/user/device/login";
      "https://whalephoto.zeasn.tv/photo/api/v1/web/sessionId" ] /\
  map params (calls (snd out))
  = [ Some []; Some [("email", "a@b.c"); ("pwd", "pw")]; Some [] ].
Proof. repeat split. Qed.

(** C4 (amended): for a non-empty email and password, [login] first requests
    an anonymous session; when that yields a non-empty identifier it sends
    the credential exchange under that identifier.  If the exchange yields a
    non-empty user token, the requests made are exactly the anonymous
    acquisition, the exchange and the authenticated acquisition with that
    token, in this order.  If the exchange fails, [login] fails with the
    same error after exactly the first two requests, and the stored session
    identifier is the anonymous one. *)
Theorem C4_login_sequence (E : Env) (email password : string) (w : world)
    (sid1 : string) :
  email <> "" -> password <> "" ->
  let this0 := client w in
  let req1 := _getSessionId_request this0 None in
  let log1 := (calls w ++ [req1])%list in
  let this1 := set_sessionId this0 (Some sid1) in
  let req2 :=
    _login_request this1 sid1 (signed_token E this1 log1 "/user/device/login")
      email password in
  settle_call (fetch E TString (calls w) req1) = inr sid1 ->
  sid1 <> "" ->
  url req1 = apiUrl this0 ++ "/sessionId" /\
  url req2 = userUrl this0 ++ "/user/device/login" /\
  (forall d : UhaleLogin,
     settle_call (fetch E TLogin log1 req2) = inr d ->
     userToken d <> "" ->
     let this2 :=
       set_user this1
         (Some {| token := userToken d; expiresAt := Number E (expireAt d) |}) in
     let req3 := _getSessionId_request this2 (Some (userToken d)) in
     calls (snd (login E (Some email) (Some password) w))
       = (calls w ++ [req1; req2; req3])%list /\
     url req3 = apiUrl this0 ++ "/getSessionId" /\
     params req3 = Some [("userToken", userToken d)] /\
     In ("sessionId", sid1) (headers req3)) /\
  (forall err : error,
     settle_call (fetch E TLogin log1 req2) = inl err ->
     fst (login E (Some email) (Some password) w) = inl err /\
     calls (snd (login E (Some email) (Some password) w)) = (calls w ++ [req1; req2])%list /\
     sessionId (client (snd (login E (Some email) (Some password) w))) = Some sid1).
Proof.
  intros He Hp this0 req1 log1 this1 req2 Hacq Hsid.
  pose (w1 := {| client := this1; calls := log1 |}).
  assert (Hstep1 : _getSessionId E None w = (inr tt, w1))
    by exact (_getSessionId_ok E None w sid1 Hacq).
  assert (Hguard : session_guard (client w1) = inr sid1)
    by exact (session_guard_stored this0 sid1 Hsid).
  split; [reflexivity|]. split; [reflexivity|]. split.
  - intros d Hex Htok this2 req3.
    assert (Hreq3 : req3 =
      {| url := apiUrl this0 ++ "/getSessionId";
         params := Some [("userToken", userToken d)]; method := "GET";
         headers := [("sessionId", sid1)]; req_body := NoBody |}).
    { unfold req3, _getSessionId_request. cbn [JS.truthy_opt].
      rewrite (truthy_nonempty _ Htok). reflexivity. }
    split.
    + rewrite (login_valid E email password w He Hp).
      unfold bind at 1. rewrite Hstep1.
      unfold bind at 1. rewrite (_login_ok E email password sid1 w1 d Hguard Hex).
      unfold bind at 1. unfold get_this at 1.
      cbn [client user set_user token].
      rewrite _getSessionId_calls. cbn [calls client w1].
      unfold log1. now rewrite app_three.
    + rewrite Hreq3. cbn. auto.
  - intros err Hex.
    assert (Hrun : login E (Some email) (Some password) w
                   = (inl err, logged w1 req2)).
    { rewrite (login_valid E email password w He Hp).
      unfold bind at 1. rewrite Hstep1.
      unfold bind at 1.
      now rewrite (_login_err E email password sid1 w1 err Hguard Hex). }
    rewrite Hrun. unfold logged.
    cbn [fst snd client calls w1 this1 set_sessionId sessionId].
    unfold log1. rewrite app_two. auto.
Qed.

Lemma C4_login_sequence_witness :
  (exists req1 req2 req3,
     calls (snd (login (accepting 200) (Some "a@b.c") (Some "pw") fresh_world))
       = [req1; req2; req3] /\
     url req3 = "https://whalephoto.zeasn.tv/photo/api/v1/web/getSessionId") /\
  fst (login rejecting_login (Some "a@b.c") (Some "pw") fresh_world)
    = inl (ApiError "401" "bad password") /\
  sessionId (client (snd (login rejecting_login (Some "a@b.c") (Some "pw") fresh_world)))
    = Some "sid-1".
Proof.
  split.
  - destruct (C4_login_sequence (accepting 200) "a@b.c" "pw" fresh_world "sid-1")
      as [_ [_ [Hok _]]];
      [discriminate | discriminate | reflexivity | discriminate |].
    edestruct Hok as [Hcalls [Hurl _]]; [reflexivity | discriminate |].
    eexists _, _, _. split; [exact Hcalls | exact Hurl].
  - destruct (C4_login_sequence rejecting_login "a@b.c" "pw" fresh_world "sid-1")
      as [_ [_ [_ Hfail]]];
      [discriminate | discriminate | reflexivity | discriminate |].
    edestruct Hfail as [Herr [_ Hsid]]; [reflexivity |].
    split; [exact Herr | exact Hsid].
Defined.

(** ** The upload workflow (C9) *)

Lemma getPresignedUrl_ok (E : Env) (w : world) (sid : string)
    (isImage : bool) (fileSize : Z) (terminalId : string)
    (offlineStorage : option bool) (d : UhalePresignedUrl) :
  session_guard (client w) = inr sid ->
  settle_call (fetch E TPresigned (calls w)
    (getPresignedUrl_request E (client w) sid (calls w) isImage fileSize
       terminalId offlineStorage)) = inr d ->
  getPresignedUrl E isImage fileSize terminalId offlineStorage w
  = (inr d,
     logged w (getPresignedUrl_request E (client w) sid (calls w) isImage
                 fileSize terminalId offlineStorage)).
Proof.
  intros Hguard H.
  unfold getPresignedUrl, bind, require_sessionId, get_this, get_calls.
  rewrite Hguard. rewrite _callApi_settles, H. reflexivity.
Qed.

Lemma saveUploadedFile_run (E : Env) (w : world) (sid : string)
    (fileUrl fileId subject : string) (fileSize : Z) (terminalId : string) :
  session_guard (client w) = inr sid ->
  let req :=
    saveUploadedFile_request (client w) sid fileUrl fileId subject fileSize
      terminalId in
  saveUploadedFile E fileUrl fileId subject fileSize terminalId w
  = (match settle_call (fetch E TString (calls w) req) with
     | inl err => inl err
     | inr _ => inr tt
     end, logged w req).
Proof.
  intros Hguard req.
  unfold saveUploadedFile, bind, require_sessionId, get_this, ret.
  rewrite Hguard. rewrite _callApi_settles. fold req.
  destruct (settle_call (fetch E TString (calls w) req)); reflexivity.
Qed.

(** C9: once the presigned descriptor is obtained, whatever response the
    PUT to the upload URL resolves with, whatever its status, [uploadFile]
    goes on to send the [saveUploadedFile] request, and when that call
    succeeds it starts the upload-confirmation poll on the minted file
    identifier; the outcome is the same for every PUT response. *)
Theorem C9_put_response_ignored (E : Env) (w : world) (sid : string)
    (isImage : bool) (file : list Byte.byte) (fileSize : option Z)
    (terminalId : string) (subject : option string)
    (d : UhalePresignedUrl) (put_response : response unit) :
  let this := client w in
  let size := JS.nullish fileSize (Z.of_nat (length file)) in
  let reqUrl :=
    getPresignedUrl_request E this sid (calls w) isImage size terminalId None in
  let reqPut := put_request d file in
  let reqSave :=
    saveUploadedFile_request this sid (fileUrl d) (fileId d)
      (JS.nullish subject "") size terminalId in
  let saved :=
    settle_call (fetch E TString (calls w ++ [reqUrl; reqPut])%list reqSave) in
  session_guard this = inr sid ->
  settle_call (fetch E TPresigned (calls w) reqUrl) = inr d ->
  fetch E TRaw (calls w ++ [reqUrl])%list reqPut = Some put_response ->
  uploadFile E isImage file fileSize terminalId subject w
  = (match saved with
     | inl err => inl err
     | inr _ => inr (fileId d, waitForFilesUploaded this [fileId d] None)
     end,
     {| client := this; calls := (calls w ++ [reqUrl; reqPut; reqSave])%list |}).
Proof.
  intros this size reqUrl reqPut reqSave saved Hguard Hurl Hput.
  unfold uploadFile. cbv zeta. fold size.
  unfold bind at 1. unfold require_sessionId at 1. fold this. rewrite Hguard.
  unfold bind at 1.
  rewrite (getPresignedUrl_ok E w sid isImage size terminalId None d Hguard Hurl).
  fold this reqUrl.
  unfold bind at 1. unfold js_fetch at 1, logged. cbn [calls client].
  fold reqPut. rewrite Hput.
  unfold bind at 1. rewrite (saveUploadedFile_run E _ sid); [|exact Hguard].
  unfold logged. cbn [calls client]. rewrite <- !app_assoc. cbn [app].
  fold this. fold reqSave. fold saved.
  destruct saved; reflexivity.
Qed.

Lemma C9_put_response_ignored_witness :
  let w := world_with_session "sid-0" in
  fst (uploadFile (accepting 500) true [] None "t-1" None w)
    = inr ("file-1", waitForFilesUploaded (client w) ["file-1"] None) /\
  fst (uploadFile (accepting 500) true [] None "t-1" None w)
    = fst (uploadFile (accepting 200) true [] None "t-1" None w) /\
  length (calls (snd (uploadFile (accepting 500) true [] None "t-1" None w))) = 3%nat.
Proof.
  intros w.
  pose proof (C9_put_response_ignored (accepting 500) w "sid-0" true [] None
                "t-1" None
                {| awsUploadUrl := "https://s3/put"; fileUrl := "https://s3/f";
                   fileId := "file-1" |}
                {| status := 500; json := None |}
                eq_refl eq_refl eq_refl) as H500.
  pose proof (C9_put_response_ignored (accepting 200) w "sid-0" true [] None
                "t-1" None
                {| awsUploadUrl := "https://s3/put"; fileUrl := "https://s3/f";
                   fileId := "file-1" |}
                {| status := 200; json := None |}
                eq_refl eq_refl eq_refl) as H200.
  cbv zeta in H500, H200. rewrite H500, H200. repeat split.
Defined.

(** ** The probes of the polls are the methods of the client *)

(** Each poller splits its probe method at the [await]: the guard and the
    request before it, the decoding of the answer after it.  Put together
    again they are the method. *)
Lemma getSessionIdState_is_probe (E : Env) (w : world) :
  getSessionIdState E w
  = match session_guard (client w) with
    | inl e => (inl e, w)
    | inr sid =>
        let req := p_request loggedIn_poller (client w) sid in
        (probe_result loggedIn_poller (fetch E TString (calls w) req), logged w req)
    end.
Proof.
  unfold getSessionIdState, bind, require_sessionId, get_this, ret, probe_result.
  destruct (session_guard (client w)) as [e|sid]; [reflexivity|].
  rewrite _callApi_settles. simpl.
  destruct (settle_call _); reflexivity.
Qed.

Lemma _getFileState_is_probe (E : Env) (fileIds : list string) (w : world) :
  _getFileState E fileIds w
  = match session_guard (client w) with
    | inl e => (inl e, w)
    | inr sid =>
        let req := p_request (uploaded_poller fileIds) (client w) sid in
        (probe_result (uploaded_poller fileIds) (fetch E TCodes (calls w) req),
         logged w req)
    end.
Proof.
  unfold _getFileState, bind, require_sessionId, get_this, ret, probe_result.
  destruct (session_guard (client w)) as [e|sid]; [reflexivity|].
  rewrite _callApi_settles. simpl.
  destruct (settle_call _); reflexivity.
Qed.

Lemma _getFileRevokeState_is_probe (E : Env) (fileIds : list string) (w : world) :
  _getFileRevokeState E fileIds w
  = match session_guard (client w) with
    | inl e => (inl e, w)
    | inr sid =>
        let req := p_request (revoked_poller fileIds) (client w) sid in
        (probe_result (revoked_poller fileIds) (fetch E TCodes (calls w) req),
         logged w req)
    end.
Proof.
  unfold _getFileRevokeState, bind, require_sessionId, get_this, ret, probe_result.
  destruct (session_guard (client w)) as [e|sid]; [reflexivity|].
  rewrite _callApi_settles. simpl.
  destruct (settle_call _); reflexivity.
Qed.

(** ** Runs on concrete schedules *)

(** Answers pending, pending, uploaded with a budget of 5: resolved after
    three probes, and the timer no longer fires. *)
Example upload_poll_resolves_on_third_probe :
  let pending := file_codes ["file-1"] [("file-1", Some "1")] in
  let uploaded := file_codes ["file-1"] [("file-1", Some "2")] in
  option_map (fun s => (promise s, attempts s, interval s))
    (run (uploaded_poller ["file-1"]) signed_in
       (waitForFilesUploaded signed_in ["file-1"] (Some (Finite 5)))
       [Answer 1 pending; Tick; Answer 2 pending; Tick; Answer 3 uploaded])
  = Some (Some Resolved, 3%nat, false).
Proof. reflexivity. Qed.

(** A client without a session: the first probe of a poll is stopped by its
    guard, nothing is sent, and the promise is rejected at once. *)
Example poll_without_session :
  let s := waitForLoggedIn (new_Uhale None) None in
  (promise s, attempts s, interval s, sent s)
  = (Some (Rejected PreconditionError), 1%nat, false, []).
Proof. reflexivity. Qed.

(** An empty batch answer counts as success: [every] holds of no entries. *)
Example empty_answer_resolves :
  option_map promise
    (run (revoked_poller ["file-1"]) signed_in
       (waitForFilesRevoked signed_in ["file-1"] None)
       [Answer 1 (file_codes ["file-1"] [])])
  = Some (Some Resolved).
Proof. reflexivity. Qed.

(** The session-state table. *)
Example session_states :
  map getSessionIdState_decode ["0"; "1"; "2"; "3"; "4"; "5"; "toString"]
  = [ JS.VStr "loggedOut"; JS.VStr "scanned"; JS.VStr "loggedIn";
      JS.VStr "failed"; JS.VStr "expired"; JS.VStr "unknown";
      JS.VInherited "toString" ].
Proof. reflexivity. Qed.

(** ** The polling loops: frame lemmas *)

Section PollingFacts.

Variable P : poller.
Variable this : Uhale.
Variable maxAttempts : budget.

Local Abbreviation resume_ := (resume P).
Local Abbreviation check_ := (check P this).
Local Abbreviation step_ := (step P this).
Local Abbreviation run_ := (run P this).
Local Abbreviation start_ := (start P this maxAttempts).

(** What [resume] can do to the closure: nothing, or clear the timer and
    settle the promise. *)
Lemma resume_cases (result : error + p_state P) (s : poll) :
  resume_ result s = s \/
  exists o, resume_ result s = settle o (clearInterval s).
Proof.
  unfold resume. destruct result as [e|observed].
  - right. now exists (Rejected e).
  - destruct (isSuccess P observed); [right; now exists Resolved|].
    destruct (isFailure P observed) as [e|]; [right; now exists (Rejected e)|].
    destruct (exhausted (attempts s) (max_attempts s));
      [right; now exists (Rejected PollTimeout) | now left].
Qed.

Lemma resume_attempts result s : attempts (resume_ result s) = attempts s.
Proof. destruct (resume_cases result s) as [-> | [o ->]]; reflexivity. Qed.

Lemma resume_budget result s : max_attempts (resume_ result s) = max_attempts s.
Proof. destruct (resume_cases result s) as [-> | [o ->]]; reflexivity. Qed.

Lemma resume_sent result s : sent (resume_ result s) = sent s.
Proof. destruct (resume_cases result s) as [-> | [o ->]]; reflexivity. Qed.

Lemma resume_outstanding result s :
  outstanding (resume_ result s) = outstanding s.
Proof. destruct (resume_cases result s) as [-> | [o ->]]; reflexivity. Qed.

Lemma resume_settled result s o :
  promise s = Some o -> promise (resume_ result s) = Some o.
Proof.
  intros H. destruct (resume_cases result s) as [-> | [o' ->]]; [exact H|].
  simpl. now rewrite H.
Qed.

Lemma resume_cleared result s :
  interval s = false -> interval (resume_ result s) = false.
Proof.
  intros H. destruct (resume_cases result s) as [-> | [o' ->]];
    [exact H | reflexivity].
Qed.

Lemma resume_timer result s :
  timer_follows_promise s -> timer_follows_promise (resume_ result s).
Proof.
  intros H. destruct (resume_cases result s) as [-> | [o ->]]; [exact H|].
  unfold timer_follows_promise. simpl. split; [discriminate|].
  destruct (promise s); discriminate.
Qed.

Lemma session_guard_error (e : error) :
  session_guard this = inl e -> e = PreconditionError.
Proof.
  unfold session_guard. destruct (sessionId this) as [sid|];
    [destruct (JS.truthy sid)|]; congruence.
Qed.

Lemma check_timer s :
  timer_follows_promise s -> timer_follows_promise (check_ s).
Proof.
  intros H. unfold check.
  destruct (session_guard this); [|exact H].
  apply resume_timer. exact H.
Qed.

Lemma check_attempts s : attempts (check_ s) = S (attempts s).
Proof.
  unfold check. destruct (session_guard this);
    [now rewrite resume_attempts | reflexivity].
Qed.

Lemma check_budget s : max_attempts (check_ s) = max_attempts s.
Proof.
  unfold check. destruct (session_guard this);
    [now rewrite resume_budget | reflexivity].
Qed.

Lemma start_budget : max_attempts start_ = maxAttempts.
Proof. unfold start. now rewrite check_budget. Qed.

Lemma run_budget evs : forall s s',
  run_ s evs = Some s' -> max_attempts s' = max_attempts s.
Proof.
  induction evs as [|ev rest IH]; simpl; intros s s' Hrun.
  - now injection Hrun as <-.
  - destruct (step_ s ev) as [s1|] eqn:Hstep; [|discriminate].
    apply IH in Hrun. rewrite Hrun.
    destruct ev as [|probe r]; simpl in Hstep.
    + destruct (interval s); [|discriminate]. injection Hstep as <-.
      apply check_budget.
    + destruct (is_outstanding probe s); [|discriminate]. injection Hstep as <-.
      now rewrite resume_budget.
Qed.

Lemma step_timer s ev s' :
  step_ s ev = Some s' -> timer_follows_promise s -> timer_follows_promise s'.
Proof.
  destruct ev as [|probe r]; simpl.
  - destruct (interval s); [|discriminate].
    intros [= <-]. apply check_timer.
  - destruct (is_outstanding probe s); [|discriminate].
    intros [= <-] H. apply resume_timer. exact H.
Qed.

Lemma start_timer : timer_follows_promise start_.
Proof. apply check_timer. split; reflexivity. Qed.

Lemma run_timer evs : forall s s',
  run_ s evs = Some s' -> timer_follows_promise s -> timer_follows_promise s'.
Proof.
  induction evs as [|ev rest IH]; simpl; intros s s' Hrun Hs.
  - now injection Hrun as <-.
  - destruct (step_ s ev) as [s1|] eqn:Hstep; [|discriminate].
    eapply IH; [exact Hrun|]. eapply step_timer; eassumption.
Qed.

(** Once the timer is cleared no probe is started any more, whatever
    happens afterwards, and a settled promise keeps its settlement. *)
Lemma cleared_is_final evs : forall s s',
  interval s = false ->
  run_ s evs = Some s' ->
  attempts s' = attempts s /\ sent s' = sent s /\ interval s' = false /\
  (forall o, promise s = Some o -> promise s' = Some o).
Proof.
  induction evs as [|ev rest IH]; simpl; intros s s' Hoff Hrun.
  - injection Hrun as <-. auto.
  - destruct ev as [|probe r]; simpl in Hrun.
    + rewrite Hoff in Hrun. discriminate.
    + destruct (is_outstanding probe s); [|discriminate].
      match type of Hrun with
      | run_ ?s1 rest = _ =>
          destruct (IH s1 s') as [Ha [Hs [Hi Hp]]];
            [now apply resume_cleared | exact Hrun |]
      end.
      rewrite resume_attempts in Ha. rewrite resume_sent in Hs. simpl in Ha, Hs.
      repeat split; auto.
      intros o Ho. apply Hp. apply resume_settled. exact Ho.
Qed.

(** Every probe is counted, and every counted probe of a client holding a
    session is sent. *)
Lemma run_attempts_grow evs : forall s s',
  run_ s evs = Some s' -> attempts s <= attempts s'.
Proof.
  induction evs as [|ev rest IH]; simpl; intros s s' Hrun.
  - injection Hrun as <-. lia.
  - destruct (step_ s ev) as [s1|] eqn:Hstep; [|discriminate].
    apply IH in Hrun.
    destruct ev as [|probe r]; simpl in Hstep.
    + destruct (interval s); [|discriminate]. injection Hstep as <-.
      rewrite check_attempts in Hrun. lia.
    + destruct (is_outstanding probe s); [|discriminate]. injection Hstep as <-.
      rewrite resume_attempts in Hrun. simpl in Hrun. lia.
Qed.

(** [check] settles the promise only through the session guard. *)
Lemma check_promise s :
  promise (check_ s) = promise s \/
  (promise s = None /\ promise (check_ s) = Some (Rejected PreconditionError)).
Proof.
  unfold check. destruct (session_guard this) as [e|sid] eqn:Hg;
    [|now left].
  apply session_guard_error in Hg. subst e. simpl.
  destruct (promise s); [now left | now right].
Qed.

(** A timeout is only ever declared while handling the answer to a
    probe. *)
Lemma timeout_needs_answer evs : forall s s',
  run_ s evs = Some s' ->
  promise s' = Some (Rejected PollTimeout) ->
  promise s = Some (Rejected PollTimeout) \/
  exists probe r, In (Answer probe r) evs.
Proof.
  induction evs as [|ev rest IH]; simpl; intros s s' Hrun Hto.
  - injection Hrun as <-. now left.
  - destruct (step_ s ev) as [s1|] eqn:Hstep; [|discriminate].
    destruct (IH s1 s' Hrun Hto) as [H1 | [probe [r Hin]]].
    + destruct ev as [|probe r].
      * simpl in Hstep. destruct (interval s); [|discriminate].
        injection Hstep as <-.
        destruct (check_promise s) as [Heq | [_ Heq]]; [left|]; congruence.
      * right. exists probe, r. now left.
    + right. exists probe, r. now right.
Qed.

End PollingFacts.

(** ** Overlap and cancellation (C2) *)

(** C2, as stated, fails: the first timer tick of [waitForLoggedIn] starts
    probe 2 while probe 1 is still awaiting its answer, so two round-trips
    are outstanding at once. *)
Lemma C2_probes_overlap :
  option_map (fun s => (promise s, map fst (outstanding s)))
    (run loggedIn_poller signed_in (waitForLoggedIn signed_in None) [Tick])
  = Some (None, [1; 2]%nat).
Proof. reflexivity. Qed.

(** C2 (amended): in every state a polling operation reaches, (1) while the
    promise is pending a timer tick starts a new probe whether or not
    earlier probes are still outstanding, so probes are not serialized;
    (2) once the promise has resolved or rejected the timer is cleared, and
    whatever events follow, no further probe is started and the settlement
    does not change. *)
Theorem C2_no_probe_after_settlement (P : poller) (this : Uhale)
    (maxAttempts : budget) (evs : list (event (dval (p_ty P)))) (s : poll) :
  run P this (start P this maxAttempts) evs = Some s ->
  (promise s = None ->
   forall sid, session_guard this = inr sid ->
   exists s',
     step P this s Tick = Some s' /\
     attempts s' = S (attempts s) /\
     outstanding s' = (outstanding s ++ [(S (attempts s), p_request P this sid)])%list) /\
  (promise s <> None ->
   interval s = false /\
   forall evs' s',
     run P this s evs' = Some s' ->
     attempts s' = attempts s /\ sent s' = sent s /\ promise s' = promise s).
Proof.
  intros Hrun.
  assert (Htimer : timer_follows_promise s).
  { eapply run_timer; [exact Hrun | apply start_timer]. }
  split.
  - intros Hpending sid Hguard.
    apply Htimer in Hpending. simpl. rewrite Hpending.
    eexists. split; [reflexivity|]. unfold check. rewrite Hguard. auto.
  - intros Hsettled.
    assert (Hoff : interval s = false).
    { destruct (interval s) eqn:Hi; [|reflexivity].
      exfalso. apply Hsettled. now apply Htimer. }
    split; [exact Hoff|].
    intros evs' s' Hrun'.
    destruct (cleared_is_final P this evs' s s' Hoff Hrun')
      as [Ha [Hs [_ Hp]]].
    repeat split; auto.
    destruct (promise s) as [o|]; [|contradiction]. now apply Hp.
Qed.

Lemma C2_no_probe_after_settlement_witness :
  exists s,
    run loggedIn_poller signed_in (waitForLoggedIn signed_in None)
      [Answer 1 (session_code "2")] = Some s /\
    promise s = Some Resolved /\
    interval s = false /\
    step loggedIn_poller signed_in s Tick = None.
Proof.
  eexists. split; [reflexivity|]. split; [reflexivity|].
  match goal with
  | |- interval ?s = false /\ _ =>
      destruct (C2_no_probe_after_settlement loggedIn_poller signed_in (Finite 5)
                  [Answer 1 (session_code "2")] s eq_refl) as [_ Hsettled];
      destruct Hsettled as [Hoff _]; [discriminate|]
  end.
  split; [exact Hoff | reflexivity].
Defined.

(** ** Terminal states of the login poll (C7) *)

Lemma step_serial_is_step (P : poller) (this : Uhale) (s s' : poll)
    (ev : event (dval (p_ty P))) :
  step_serial P this s ev = Some s' -> step P this s ev = Some s'.
Proof.
  unfold step_serial.
  destruct ev; [destruct (outstanding s); [auto | discriminate] | auto].
Qed.

Lemma step_serial_one_pending (P : poller) (this : Uhale) (s s' : poll)
    (ev : event (dval (p_ty P))) :
  timer_follows_promise s -> one_pending_probe s ->
  step_serial P this s ev = Some s' -> one_pending_probe s'.
Proof.
  intros Htimer Hone Hstep. destruct ev as [|probe r].
  - unfold step_serial in Hstep.
    destruct (outstanding s) as [|entry rest] eqn:Hout; [|discriminate].
    simpl in Hstep. destruct (interval s) eqn:Hi; [|discriminate].
    injection Hstep as <-.
    assert (Hp : promise s = None) by now apply Htimer.
    unfold check. destruct (session_guard this) as [e|sid].
    + left. now rewrite resume_outstanding.
    + right. simpl. rewrite Hout. simpl.
      eexists _, _. split; [reflexivity | exact Hp].
  - apply step_serial_is_step in Hstep. simpl in Hstep.
    destruct (is_outstanding probe s) eqn:Hin; [|discriminate].
    injection Hstep as <-. left. rewrite resume_outstanding. simpl.
    destruct Hone as [Hout | [k [req [Hout _]]]].
    + unfold is_outstanding in Hin. rewrite Hout in Hin. discriminate.
    + unfold is_outstanding in Hin. rewrite Hout in Hin. rewrite Hout. simpl in *.
      destruct (Nat.eqb k probe); [reflexivity | discriminate].
Qed.

Lemma run_serial_one_pending (P : poller) (this : Uhale)
    (evs : list (event (dval (p_ty P)))) : forall s s',
  timer_follows_promise s -> one_pending_probe s ->
  run_serial P this s evs = Some s' -> one_pending_probe s'.
Proof.
  induction evs as [|ev rest IH]; simpl; intros s s' Htimer Hone Hrun.
  - now injection Hrun as <-.
  - destruct (step_serial P this s ev) as [s1|] eqn:Hstep; [|discriminate].
    apply (IH s1 s'); [| |exact Hrun].
    + eapply step_timer; [|exact Htimer]. apply step_serial_is_step. exact Hstep.
    + eapply step_serial_one_pending; eassumption.
Qed.

Lemma start_one_pending (P : poller) (this : Uhale) (maxAttempts : budget) :
  one_pending_probe (start P this maxAttempts).
Proof.
  unfold start, check. destruct (session_guard this) as [e|sid].
  - left. now rewrite resume_outstanding.
  - right. simpl. eauto.
Qed.

(** C7, as stated, fails: the tick after the first probe starts a second
    one; the second is answered 'loggedIn' and resolves the promise; the
    answer 'failed' to the first probe, observed afterwards, is the first
    observation of a terminal state and does not fail the operation. *)
Lemma C7_failed_answer_after_resolution :
  getSessionIdState_decode "3" = JS.VStr "failed" /\
  option_map promise
    (run loggedIn_poller signed_in (waitForLoggedIn signed_in None)
       [Tick; Answer 2 (session_code "2"); Answer 1 (session_code "3")])
  = Some (Some Resolved).
Proof. split; reflexivity. Qed.

(** C7 (amended): while the promise of [waitForLoggedIn] is pending, the
    answer to an outstanding probe that decodes to 'failed' or 'expired'
    rejects the promise with the error [Login failed] / [Login expired] and
    clears the timer, whatever the attempt count and the budget, and no
    probe is started afterwards; and in every run of [waitForLoggedIn]
    without overlapping probes the promise is pending whenever a probe is
    awaiting its answer. *)
Theorem C7_login_terminal_state (this : Uhale) :
  (forall (s : poll) (probe : nat) (r : option (response string))
          (data terminal : string),
     promise s = None ->
     is_outstanding probe s = true ->
     settle_call r = inr data ->
     terminal = "failed" \/ terminal = "expired" ->
     getSessionIdState_decode data = JS.VStr terminal ->
     exists s',
       step loggedIn_poller this s (Answer probe r) = Some s' /\
       promise s' = Some (Rejected (PollFailed terminal)) /\
       message (PollFailed terminal) = Some ("Login " ++ terminal) /\
       interval s' = false /\
       attempts s' = attempts s /\
       forall evs s'',
         run loggedIn_poller this s' evs = Some s'' ->
         attempts s'' = attempts s /\ sent s'' = sent s /\
         promise s'' = Some (Rejected (PollFailed terminal))) /\
  (forall (maxAttempts : option budget) evs (s : poll) (probe : nat),
     run_serial loggedIn_poller this (waitForLoggedIn this maxAttempts) evs
       = Some s ->
     is_outstanding probe s = true ->
     promise s = None).
Proof.
  split.
  - intros s probe r data terminal Hpending Hout Hdata Hterm Hdec.
    assert (Hstep : step loggedIn_poller this s (Answer probe r)
      = Some (settle (Rejected (PollFailed terminal))
          (clearInterval
             {| max_attempts := max_attempts s;
                attempts := attempts s; interval := interval s;
                promise := promise s;
                outstanding := forget probe (outstanding s); sent := sent s |}))).
    { simpl. rewrite Hout. unfold probe_result. simpl. rewrite Hdata.
      unfold resume. simpl. rewrite Hdec.
      destruct Hterm as [-> | ->]; reflexivity. }
    eexists. split; [exact Hstep|].
    simpl. rewrite Hpending.
    do 4 (split; [reflexivity|]).
    intros evs s'' Hrun.
    match type of Hrun with
    | run _ _ ?s1 evs = _ =>
        destruct (cleared_is_final loggedIn_poller this evs s1 s''
                    eq_refl Hrun) as [Ha [Hs [_ Hp]]]
    end.
    simpl in Ha, Hs. split; [exact Ha|]. split; [exact Hs|].
    apply Hp. simpl. rewrite ?Hpending. reflexivity.
  - intros maxAttempts evs s probe Hrun Hout.
    assert (Hone : one_pending_probe s).
    { eapply run_serial_one_pending; [| |exact Hrun].
      - unfold waitForLoggedIn. apply start_timer.
      - unfold waitForLoggedIn. apply start_one_pending. }
    destruct Hone as [Hempty | [k [req [_ Hp]]]]; [|exact Hp].
    unfold is_outstanding in Hout. rewrite Hempty in Hout. discriminate.
Qed.

Lemma C7_login_terminal_state_witness :
  exists s',
    run loggedIn_poller signed_in (waitForLoggedIn signed_in None)
      [Answer 1 (session_code "1"); Tick; Answer 2 (session_code "3")] = Some s' /\
    promise s' = Some (Rejected (PollFailed "failed")) /\
    attempts s' = 2%nat /\
    step loggedIn_poller signed_in s' Tick = None.
Proof.
  pose (s := {| max_attempts := Finite 5;
                attempts := 2; interval := true; promise := None;
                outstanding := [(2%nat, getSessionIdState_request signed_in "sid-0")];
                sent := [getSessionIdState_request signed_in "sid-0";
                         getSessionIdState_request signed_in "sid-0"] |}).
  destruct (proj1 (C7_login_terminal_state signed_in) s 2 (session_code "3")
              "3" "failed" eq_refl eq_refl eq_refl (or_introl eq_refl) eq_refl)
    as [s' [Hstep [Hp [_ [Hoff [Ha _]]]]]].
  exists s'. split.
  - change (run loggedIn_poller signed_in
              (waitForLoggedIn signed_in None)
              [Answer 1 (session_code "1"); Tick; Answer 2 (session_code "3")])
      with (step loggedIn_poller signed_in s (Answer 2 (session_code "3"))).
    exact Hstep.
  - split; [exact Hp|]. split; [exact Ha|]. simpl. now rewrite Hoff.
Defined.

(** ** The first probe precedes the budget test (C10) *)

Lemma exhausted_nonpositive (n : Z) (attempts : nat) :
  (n <= 0)%Z -> exhausted attempts (Finite n) = true.
Proof. intros H. simpl. apply Z.leb_le. lia. Qed.

Lemma start_attempts (P : poller) (this : Uhale) (maxAttempts : budget) :
  attempts (start P this maxAttempts) = 1%nat.
Proof. unfold start. now rewrite check_attempts. Qed.

Lemma start_not_timed_out (P : poller) (this : Uhale) (maxAttempts : budget) :
  promise (start P this maxAttempts) <> Some (Rejected PollTimeout).
Proof.
  unfold start.
  match goal with
  | |- promise (check _ _ ?s0) <> _ =>
      destruct (check_promise P this s0) as [-> | [_ ->]]
  end; discriminate.
Qed.

(** Each of the three methods is [start] on its own poller, with the budget
    given or, when none is given, the method's default. *)
Lemma call_poll_is_start (this : Uhale) (c : polling_call) :
  exists maxAttempts,
    call_poll this c = start (poller_of c) this maxAttempts /\
    forall given, budget_given c = Some given -> maxAttempts = given.
Proof.
  destruct c as [m | fileIds m | fileIds m]; simpl;
    eexists; (split; [reflexivity|]); intros given ->; reflexivity.
Qed.

Lemma answer_with_budget_used (P : poller) (this : Uhale) (s : poll)
    (probe : nat) (r : option (response (dval (p_ty P)))) :
  promise s = None ->
  is_outstanding probe s = true ->
  keeps_polling P r ->
  exhausted (attempts s) (max_attempts s) = true ->
  exists s',
    step P this s (Answer probe r) = Some s' /\
    promise s' = Some (Rejected PollTimeout) /\
    interval s' = false /\
    attempts s' = attempts s /\
    sent s' = sent s.
Proof.
  intros Hpending Hout [observed [Hres [Hsucc Hfail]]] Hex.
  eexists. split; [simpl; rewrite Hout, Hres; reflexivity|].
  unfold resume. rewrite Hsucc, Hfail.
  cbn [attempts max_attempts]. rewrite Hex.
  unfold settle, clearInterval. cbn [promise interval attempts sent].
  rewrite Hpending. auto.
Qed.

(** C10, as stated, fails: with [maxAttempts = 0] a tick that fires before
    the first answer starts a second probe, so the timeout is declared after
    two probes, not one. *)
Lemma C10_second_probe_before_timeout :
  let pending := file_codes ["file-1"] [("file-1", Some "1")] in
  keeps_polling (uploaded_poller ["file-1"]) pending /\
  option_map (fun s => (promise s, attempts s, length (sent s)))
    (run (uploaded_poller ["file-1"]) signed_in
       (waitForFilesUploaded signed_in ["file-1"] (Some (Finite 0)))
       [Tick; Answer 1 pending])
  = Some (Some (Rejected PollTimeout), 2%nat, 2%nat).
Proof.
  split; [|reflexivity].
  eexists. split; [reflexivity|]. split; reflexivity.
Qed.

(** C10 (amended): each of [waitForLoggedIn], [waitForFilesUploaded] and
    [waitForFilesRevoked] has counted one probe when it returns its promise,
    and has not declared a timeout at that point; in every state it reaches
    afterwards at least one probe has been issued, and a timeout is only
    declared while handling the answer to a probe.  With a budget of 0 or
    less, the first answer that is handled while the promise is pending and
    is neither success nor failure rejects the promise with [PollTimeout],
    however many probes the timer has started by then; when that answer
    arrives before the first tick, exactly one probe has been issued. *)
Theorem C10_probe_before_budget (this : Uhale) (c : polling_call) :
  (attempts (call_poll this c) = 1%nat /\
   promise (call_poll this c) <> Some (Rejected PollTimeout)) /\
  (forall evs s,
     run (poller_of c) this (call_poll this c) evs = Some s ->
     1 <= attempts s /\
     (promise s = Some (Rejected PollTimeout) ->
      exists probe r, In (Answer probe r) evs)) /\
  (forall n evs s probe r,
     budget_given c = Some (Finite n) -> (n <= 0)%Z ->
     run (poller_of c) this (call_poll this c) evs = Some s ->
     promise s = None ->
     is_outstanding probe s = true ->
     keeps_polling (poller_of c) r ->
     exists s',
       step (poller_of c) this s (Answer probe r) = Some s' /\
       promise s' = Some (Rejected PollTimeout) /\
       interval s' = false /\
       attempts s' = attempts s /\
       sent s' = sent s) /\
  (forall n sid r,
     budget_given c = Some (Finite n) -> (n <= 0)%Z ->
     session_guard this = inr sid ->
     keeps_polling (poller_of c) r ->
     exists s,
       run (poller_of c) this (call_poll this c) [Answer 1 r] = Some s /\
       promise s = Some (Rejected PollTimeout) /\
       interval s = false /\
       attempts s = 1%nat /\
       sent s = [p_request (poller_of c) this sid]).
Proof.
  destruct (call_poll_is_start this c) as [maxAttempts [Hcall Hgiven]].
  rewrite Hcall.
  split; [split; [apply start_attempts | apply start_not_timed_out]|].
  split; [|split].
  - intros evs s Hrun. split.
    + apply run_attempts_grow in Hrun. rewrite start_attempts in Hrun. lia.
    + intros Hto.
      destruct (timeout_needs_answer (poller_of c) this evs _ s Hrun Hto)
        as [Hbad | Hans]; [|exact Hans].
      now apply start_not_timed_out in Hbad.
  - intros n evs s probe r Hc Hn Hrun Hpending Hout Hr.
    apply (answer_with_budget_used (poller_of c) this s probe r Hpending Hout Hr).
    rewrite (run_budget (poller_of c) this evs _ s Hrun), start_budget.
    rewrite (Hgiven _ Hc). now apply exhausted_nonpositive.
  - intros n sid r Hc Hn Hguard Hr.
    assert (Hstart : start (poller_of c) this maxAttempts
      = {| max_attempts := maxAttempts; attempts := 1; interval := true;
           promise := None;
           outstanding := [(1%nat, p_request (poller_of c) this sid)];
           sent := [p_request (poller_of c) this sid] |}).
    { unfold start, check. now rewrite Hguard. }
    destruct (answer_with_budget_used (poller_of c) this
                (start (poller_of c) this maxAttempts) 1 r)
      as [s [Hstep [Hp [Hoff [Ha Hs]]]]].
    + now rewrite Hstart.
    + now rewrite Hstart.
    + exact Hr.
    + rewrite start_budget, start_attempts, (Hgiven _ Hc).
      now apply exhausted_nonpositive.
    + exists s. cbn [run]. rewrite Hstep.
      rewrite Hs, Ha, Hstart. auto.
Qed.

Lemma C10_probe_before_budget_witness :
  exists s,
    run (uploaded_poller ["file-1"]) signed_in
      (waitForFilesUploaded signed_in ["file-1"] (Some (Finite 0)))
      [Answer 1 (file_codes ["file-1"] [("file-1", Some "1")])] = Some s /\
    promise s = Some (Rejected PollTimeout) /\
    attempts s = 1%nat.
Proof.
  destruct (C10_probe_before_budget signed_in
              (CallFilesUploaded ["file-1"] (Some (Finite 0))))
    as [_ [_ [_ Hzero]]].
  destruct (Hzero 0%Z "sid-0" (file_codes ["file-1"] [("file-1", Some "1")])
              eq_refl (Z.le_refl 0) eq_refl) as [s [Hrun [Hp [_ [Ha _]]]]].
  - eexists. split; [reflexivity|]. split; reflexivity.
  - exists s. auto.
Defined.

(** ** The attempt budget (C6) *)

(** C6, as stated, fails: with [maxAttempts = 3] and answers that are never
    success or failure, three ticks pass before the first probe is answered;
    the promise is then rejected with [PollTimeout] after four probes have
    been issued, not three. *)
Lemma C6_fourth_probe_before_timeout :
  let pending := file_codes ["file-1"] [("file-1", Some "1")] in
  keeps_polling (uploaded_poller ["file-1"]) pending /\
  option_map (fun s => (promise s, attempts s, length (sent s)))
    (run (uploaded_poller ["file-1"]) signed_in
       (waitForFilesUploaded signed_in ["file-1"] (Some (Finite 3)))
       [Tick; Tick; Tick; Answer 1 pending])
  = Some (Some (Rejected PollTimeout), 4%nat, 4%nat).
Proof.
  split; [|reflexivity].
  eexists. split; [reflexivity|]. split; reflexivity.
Qed.

Section Budget.

Variable P : poller.
Variable this : Uhale.
Variable sid : string.
Variable n : nat.

Hypothesis Hguard : session_guard this = inr sid.

Local Abbreviation budget_ := (Finite (Z.of_nat n)).
Local Abbreviation req_ := (p_request P this sid).
Local Abbreviation waiting_ := (waiting P this sid n).
Local Abbreviation idle_ := (idle P this sid n).
Local Abbreviation timed_out_ := (timed_out P this sid n).
Local Abbreviation on_budget_ := (on_budget P this sid n).
Local Abbreviation rounds_ := (rounds P).
Local Abbreviation serial_schedule_ := (serial_schedule P n).

Lemma repeat_snoc (k : nat) : (repeat req_ k ++ [req_])%list = repeat req_ (S k).
Proof.
  induction k as [|k IH]; [reflexivity|]. simpl. now rewrite IH.
Qed.

Lemma start_waiting : waiting_ 1 (start P this budget_).
Proof. unfold waiting, start, check. now rewrite Hguard. Qed.

Lemma tick_idle (k : nat) (s : poll) :
  idle_ k s ->
  exists s', step_serial P this s Tick = Some s' /\ waiting_ (S k) s'.
Proof.
  intros ->. unfold step_serial. simpl. unfold check. rewrite Hguard. simpl.
  eexists. split; [reflexivity|]. unfold waiting. now rewrite repeat_snoc.
Qed.

Lemma exhausted_spec (k : nat) : exhausted k budget_ = (n <=? k)%nat.
Proof.
  simpl. destruct (Nat.leb_spec n k).
  - apply Z.leb_le. lia.
  - apply Z.leb_gt. lia.
Qed.

Lemma answer_waiting (k : nat) (s : poll) (r : option (response (dval (p_ty P)))) :
  waiting_ k s -> keeps_polling P r ->
  exists s',
    step_serial P this s (Answer k r) = Some s' /\
    ((k < n /\ idle_ k s') \/ (n <= k /\ timed_out_ k s')).
Proof.
  intros -> [observed [Hres [Hsucc Hfail]]].
  unfold step_serial. cbn [outstanding step is_outstanding existsb orb forget
    attempts interval promise sent].
  rewrite Nat.eqb_refl. cbn [orb]. rewrite Hres. unfold resume.
  rewrite Hsucc, Hfail. cbn [attempts]. rewrite exhausted_spec.
  destruct (Nat.leb_spec n k).
  - eexists. split; [reflexivity|]. right. split; [lia | reflexivity].
  - eexists. split; [reflexivity|]. left. split; [lia | reflexivity].
Qed.

(** Only the probe that is awaiting its answer can be answered. *)
Lemma answer_other (k probe : nat) (s : poll) r :
  waiting_ k s -> probe <> k ->
  step_serial P this s (Answer probe r) = None.
Proof.
  intros -> Hneq. unfold step_serial, step, is_outstanding.
  cbn [outstanding existsb].
  destruct (Nat.eqb_spec k probe); [congruence | reflexivity].
Qed.

Lemma step_on_budget (s s' : poll) (ev : event (dval (p_ty P))) :
  on_budget_ s -> answers_keep_polling P ev ->
  step_serial P this s ev = Some s' -> on_budget_ s'.
Proof.
  intros [[k [Hw Hk]] | [[k [Hi Hk]] | Hto]] Hev Hstep.
  - destruct ev as [|probe r].
    + rewrite Hw in Hstep. discriminate.
    + destruct (Nat.eq_dec probe k) as [-> | Hneq].
      * destruct (answer_waiting k s r Hw Hev) as [s1 [Hs1 Hshape]].
        rewrite Hs1 in Hstep. injection Hstep as <-.
        destruct Hshape as [[Hlt Hidle] | [Hge Hout]].
        -- right; left. exists k. split; [exact Hidle | lia].
        -- right; right. assert (k = n) by lia. now subst k.
      * rewrite (answer_other k probe s r Hw Hneq) in Hstep. discriminate.
  - destruct ev as [|probe r].
    + destruct (tick_idle k s Hi) as [s1 [Hs1 Hw]].
      rewrite Hs1 in Hstep. injection Hstep as <-.
      left. exists (S k). split; [exact Hw | lia].
    + rewrite Hi in Hstep. discriminate.
  - rewrite Hto in Hstep. destruct ev; discriminate.
Qed.

Lemma run_on_budget (evs : list (event (dval (p_ty P)))) : forall s s',
  on_budget_ s -> Forall (answers_keep_polling P) evs ->
  run_serial P this s evs = Some s' -> on_budget_ s'.
Proof.
  induction evs as [|ev rest IH]; simpl; intros s s' Hs Hall Hrun.
  - now injection Hrun as <-.
  - inversion Hall as [|? ? Hev Hrest]; subst.
    destruct (step_serial P this s ev) as [s1|] eqn:Hstep; [|discriminate].
    eapply IH; [|exact Hrest | exact Hrun].
    eapply step_on_budget; eassumption.
Qed.

Lemma rounds_keep_polling r k count :
  keeps_polling P r -> Forall (answers_keep_polling P) (rounds_ r k count).
Proof.
  intros Hr. revert k. induction count as [|count IH]; intros k; simpl.
  - constructor.
  - constructor; [exact I|]. constructor; [exact Hr | apply IH].
Qed.

Lemma rounds_time_out r (Hr : keeps_polling P r) (count : nat) : forall k s,
  idle_ k s -> k + S count = n ->
  exists s',
    run_serial P this s (rounds_ r k (S count)) = Some s' /\
    timed_out_ n s'.
Proof.
  induction count as [|count IH]; intros k s Hidle Hsum.
  - destruct (tick_idle k s Hidle) as [s1 [Hs1 Hw]].
    destruct (answer_waiting (S k) s1 r Hw Hr) as [s2 [Hs2 Hshape]].
    cbn [rounds run_serial]. rewrite Hs1, Hs2.
    destruct Hshape as [[Hlt _] | [_ Hout]]; [lia|].
    exists s2. split; [reflexivity|].
    assert (Hk : S k = n) by lia. rewrite Hk in Hout. exact Hout.
  - destruct (tick_idle k s Hidle) as [s1 [Hs1 Hw]].
    destruct (answer_waiting (S k) s1 r Hw Hr) as [s2 [Hs2 Hshape]].
    destruct Hshape as [[_ Hidle2] | [Hge _]]; [|lia].
    destruct (IH (S k) s2 Hidle2) as [s' [Hrun Hout]]; [lia|].
    exists s'. split; [|exact Hout].
    change (rounds_ r k (S (S count)))
      with (Tick :: Answer (S k) r :: rounds_ r (S k) (S count)).
    cbn [run_serial]. rewrite Hs1, Hs2. exact Hrun.
Qed.

Lemma serial_schedule_times_out r :
  1 <= n -> keeps_polling P r ->
  exists s,
    run_serial P this (start P this budget_) (serial_schedule_ r) = Some s /\
    timed_out_ n s.
Proof.
  intros Hn Hr. unfold serial_schedule.
  destruct (answer_waiting 1 _ r start_waiting Hr) as [s1 [Hs1 Hshape]].
  cbn [run_serial]. rewrite Hs1.
  destruct Hshape as [[Hlt Hidle] | [Hge Hout]].
  - replace (n - 1) with (S (n - 2)) by lia.
    apply (rounds_time_out r Hr (n - 2) 1 s1 Hidle). lia.
  - replace (n - 1) with 0 by lia. cbn [rounds run_serial].
    exists s1. split; [reflexivity|].
    assert (Hk : 1 = n) by lia. rewrite Hk in Hout. exact Hout.
Qed.

End Budget.

Lemma run_serial_is_run (P : poller) (this : Uhale)
    (evs : list (event (dval (p_ty P)))) : forall s s',
  run_serial P this s evs = Some s' ->
  run P this s evs = Some s'.
Proof.
  induction evs as [|ev rest IH]; simpl; intros s s' Hrun; [exact Hrun|].
  destruct (step_serial P this s ev) as [s1|] eqn:Hstep; [|discriminate].
  assert (Hs : step P this s ev = Some s1).
  { unfold step_serial in Hstep.
    destruct ev; [destruct (outstanding s); [exact Hstep | discriminate] | exact Hstep]. }
  rewrite Hs. now apply IH.
Qed.

Lemma on_budget_counts (P : poller) (this : Uhale) (sid : string) (n : nat)
    (s : poll) :
  on_budget P this sid n s ->
  attempts s <= n /\ length (sent s) = attempts s /\
  (promise s = None \/
   (promise s = Some (Rejected PollTimeout) /\ attempts s = n /\ interval s = false)).
Proof.
  intros [[k [-> Hk]] | [[k [-> Hk]] | ->]]; simpl; rewrite repeat_length;
    repeat split; auto; lia.
Qed.

(** C6 (amended): let [maxAttempts] be a finite [n >= 1], let the client hold
    a session, and let no probe overlap another (no tick fires while a probe
    awaits its answer).  If every answer is neither success nor failure,
    then at most [n] probes are ever issued, and the promise is only ever
    rejected with [PollTimeout], exactly when [n] probes have been issued;
    the schedule that answers each probe before the next tick reaches that
    rejection after exactly [n] probes, and no probe follows it whatever
    happens next. *)
Theorem C6_timeout_after_budget (P : poller) (this : Uhale) (sid : string)
    (n : nat) (r : option (response (dval (p_ty P)))) :
  1 <= n ->
  session_guard this = inr sid ->
  keeps_polling P r ->
  let maxAttempts := Finite (Z.of_nat n) in
  (forall evs s,
     Forall (answers_keep_polling P) evs ->
     run_serial P this (start P this maxAttempts) evs = Some s ->
     attempts s <= n /\ length (sent s) = attempts s /\
     (promise s = None \/
      (promise s = Some (Rejected PollTimeout) /\ attempts s = n))) /\
  (exists s,
     run_serial P this (start P this maxAttempts)
       (serial_schedule P n r) = Some s /\
     promise s = Some (Rejected PollTimeout) /\
     attempts s = n /\ length (sent s) = n /\
     forall evs' s',
       run P this s evs' = Some s' ->
       attempts s' = n /\ sent s' = sent s /\
       promise s' = Some (Rejected PollTimeout)).
Proof.
  intros Hn Hguard Hr maxAttempts. split.
  - intros evs s Hall Hrun.
    assert (Hs : on_budget P this sid n s).
    { eapply (run_on_budget P this sid n Hguard); [|exact Hall | exact Hrun].
      left. exists 1. split; [apply start_waiting; exact Hguard | lia]. }
    destruct (on_budget_counts P this sid n s Hs) as [Hle [Hlen Hp]].
    split; [exact Hle|]. split; [exact Hlen|].
    destruct Hp as [Hp | [Hp [Ha _]]]; [now left | now right].
  - destruct (serial_schedule_times_out P this sid n Hguard r Hn Hr)
      as [s [Hrun Hout]].
    exists s. split; [exact Hrun|].
    assert (Hs : on_budget P this sid n s) by (right; right; exact Hout).
    destruct (on_budget_counts P this sid n s Hs) as [_ [Hlen Hp]].
    destruct Hp as [Hp | [Hp [Ha Hoff]]].
    { rewrite Hout in Hp. discriminate. }
    split; [exact Hp|]. split; [exact Ha|]. split; [congruence|].
    intros evs' s' Hrun'.
    destruct (cleared_is_final P this evs' s s' Hoff Hrun')
      as [Ha' [Hs' [_ Hp']]].
    split; [congruence|]. split; [exact Hs'|]. now apply Hp'.
Qed.

Lemma C6_timeout_after_budget_witness :
  let pending := file_codes ["file-1"] [("file-1", Some "1")] in
  exists s,
    run_serial (uploaded_poller ["file-1"]) signed_in
      (waitForFilesUploaded signed_in ["file-1"] (Some (Finite 3)))
      [Answer 1 pending; Tick; Answer 2 pending; Tick; Answer 3 pending] = Some s /\
    promise s = Some (Rejected PollTimeout) /\
    attempts s = 3%nat.
Proof.
  intros pending.
  destruct (C6_timeout_after_budget (uploaded_poller ["file-1"]) signed_in "sid-0"
              3 pending) as [_ [s [Hrun [Hp [Ha _]]]]].
  - lia.
  - reflexivity.
  - eexists. split; [reflexivity|]. split; reflexivity.
  - exists s. split; [exact Hrun|]. split; [exact Hp | exact Ha].
Defined.

(** * Further properties of the client *)

(** ** Transport *)

Lemma unwrap_error {T : Type} (r : UhaleResponse T) (e : error) :
  unwrap r = inl e -> transport_error e.
Proof.
  unfold unwrap. destruct (errorCode r) as [code|]; simpl; [|discriminate].
  unfold JS.truthy.
  destruct (String.eqb_spec code ""); [discriminate|].
  destruct (String.eqb_spec code "0"); [discriminate|].
  simpl. intros [= <-]. right. exists code, (errorMsg r). auto.
Qed.

Lemma settle_call_error {T : Type} (r : option (response T)) (e : error) :
  settle_call r = inl e -> transport_error e.
Proof.
  unfold settle_call, response_json.
  destruct r as [resp|]; [|intros [= <-]; now left].
  destruct (json resp) as [envelope|]; [|intros [= <-]; now left].
  apply unwrap_error.
Qed.

Lemma transport_error_not_guard (e : error) :
  transport_error e ->
  e <> PreconditionError /\ e <> ValidationError /\ e <> TypeError /\
  e <> PollTimeout.
Proof.
  intros [-> | [code [msg [-> _]]]]; repeat split; discriminate.
Qed.

(** Every call through the transport hands exactly one request to [fetch],
    whether it succeeds or not, and leaves the client as it is; the HTTP
    status is never read: the outcome is [NetworkError] when [fetch] or
    [json()] rejects, and otherwise what the envelope test yields, so that
    the only errors are [NetworkError] and an [ApiError] whose code is
    neither empty nor "0". *)
Theorem callApi_outcome (E : Env) (t : dty) (req : request) (w : world) :
  snd (_callApi E t req w) = {| client := client w; calls := calls w ++ [req] |} /\
  (fetch E t (calls w) req = None -> fst (_callApi E t req w) = inl NetworkError) /\
  (forall code envelope,
     fetch E t (calls w) req = Some {| status := code; json := envelope |} ->
     fst (_callApi E t req w)
     = match envelope with
       | None => inl NetworkError
       | Some r => unwrap r
       end) /\
  (forall e, fst (_callApi E t req w) = inl e -> transport_error e).
Proof.
  rewrite _callApi_settles. simpl. split; [reflexivity|]. split; [|split].
  - now intros ->.
  - intros code envelope ->. simpl. unfold response_json. simpl.
    destruct envelope; reflexivity.
  - intros e. apply settle_call_error.
Qed.

Lemma callApi_outcome_witness :
  fst (_callApi (accepting 200) TRaw (_getSessionId_request signed_in None)
         fresh_world) = inl NetworkError /\
  fst (_callApi (accepting 200) TTerminals (_getSessionId_request signed_in None)
         fresh_world) = inl NetworkError.
Proof.
  destruct (callApi_outcome (accepting 200) TRaw
              (_getSessionId_request signed_in None) fresh_world)
    as [_ [_ [Hjson _]]].
  destruct (callApi_outcome (accepting 200) TTerminals
              (_getSessionId_request signed_in None) fresh_world)
    as [_ [Hreject _]].
  split.
  - exact (Hjson 200%Z None eq_refl).
  - exact (Hreject eq_refl).
Defined.

(** ** The session guard *)

Lemma require_sessionId_falsy (w : world) :
  JS.truthy_opt (sessionId (client w)) = false ->
  require_sessionId w = (inl PreconditionError, w).
Proof.
  intros H. unfold require_sessionId, session_guard.
  destruct (sessionId (client w)) as [sid|]; [|reflexivity].
  simpl in H. now rewrite H.
Qed.

Lemma session_guard_cases (this : Uhale) :
  (JS.truthy_opt (sessionId this) = false /\
   session_guard this = inl PreconditionError) \/
  (exists sid, sessionId this = Some sid /\ sid <> "" /\
               session_guard this = inr sid).
Proof.
  unfold session_guard. destruct (sessionId this) as [sid|]; [|now left].
  simpl. unfold JS.truthy. destruct (String.eqb_spec sid "").
  - now left.
  - right. exists sid. auto.
Qed.

Ltac stopped_by_falsy_guard H :=
  unfold bind; rewrite (require_sessionId_falsy _ H); reflexivity.

(** A stored session identifier that is the empty string counts as no
    session: each authenticated method fails with [PreconditionError]
    without a network call, exactly as with [null]. *)
Theorem empty_session_is_no_session (E : Env) (w : world) :
  sessionId (client w) = Some "" ->
  getTerminals E w = (inl PreconditionError, w) /\
  (forall isImage file fileSize terminalId subject,
     uploadFile E isImage file fileSize terminalId subject w
       = (inl PreconditionError, w)) /\
  (forall terminalId fileIds,
     revokeFiles E terminalId fileIds w = (inl PreconditionError, w)) /\
  getSessionIdState E w = (inl PreconditionError, w) /\
  (forall isImage fileSize terminalId offlineStorage,
     getPresignedUrl E isImage fileSize terminalId offlineStorage w
       = (inl PreconditionError, w)) /\
  (forall fileUrl fileId subject fileSize terminalId,
     saveUploadedFile E fileUrl fileId subject fileSize terminalId w
       = (inl PreconditionError, w)) /\
  (forall fileIds, _getFileState E fileIds w = (inl PreconditionError, w)) /\
  (forall fileIds, _getFileRevokeState E fileIds w = (inl PreconditionError, w)).
Proof.
  intros Hs.
  assert (H : JS.truthy_opt (sessionId (client w)) = false) by now rewrite Hs.
  repeat split; intros.
  - unfold getTerminals. stopped_by_falsy_guard H.
  - unfold uploadFile. stopped_by_falsy_guard H.
  - unfold revokeFiles. stopped_by_falsy_guard H.
  - unfold getSessionIdState. stopped_by_falsy_guard H.
  - unfold getPresignedUrl. stopped_by_falsy_guard H.
  - unfold saveUploadedFile. stopped_by_falsy_guard H.
  - unfold _getFileState. stopped_by_falsy_guard H.
  - unfold _getFileRevokeState. stopped_by_falsy_guard H.
Qed.

Lemma empty_session_is_no_session_witness :
  getTerminals (accepting 200) (world_with_session "")
    = (inl PreconditionError, world_with_session "").
Proof.
  exact (proj1 (empty_session_is_no_session (accepting 200)
                  (world_with_session "") eq_refl)).
Defined.

Ltac one_call Hguard :=
  unfold bind, require_sessionId, get_this, get_calls, ret;
  rewrite Hguard; rewrite _callApi_settles;
  eexists; split;
    [ destruct (settle_call _); reflexivity
    | split;
      [ simpl; auto
      | let e := fresh "e" in
        let He := fresh "He" in
        intros e He; destruct (settle_call _) eqn:Hcall;
          [ apply (settle_call_error _ _) in Hcall; simpl in He;
            injection He as <-; exact Hcall
          | discriminate He ] ] ].

(** With a session stored, each authenticated method short of [uploadFile]
    makes exactly one call, sends the stored identifier in its [sessionId]
    header, leaves the client fields as they are, and can only fail with a
    transport error, never with [PreconditionError]. *)
Theorem authenticated_methods_make_one_call (E : Env) (w : world) (sid : string) :
  session_guard (client w) = inr sid ->
  one_call_under sid w (getTerminals E w) /\
  (forall terminalId fileIds,
     one_call_under sid w (revokeFiles E terminalId fileIds w)) /\
  one_call_under sid w (getSessionIdState E w) /\
  (forall isImage fileSize terminalId offlineStorage,
     one_call_under sid w
       (getPresignedUrl E isImage fileSize terminalId offlineStorage w)) /\
  (forall fileUrl fileId subject fileSize terminalId,
     one_call_under sid w
       (saveUploadedFile E fileUrl fileId subject fileSize terminalId w)) /\
  (forall fileIds, one_call_under sid w (_getFileState E fileIds w)) /\
  (forall fileIds, one_call_under sid w (_getFileRevokeState E fileIds w)).
Proof.
  intros Hguard. repeat split; intros; unfold one_call_under.
  - unfold getTerminals. one_call Hguard.
  - unfold revokeFiles. one_call Hguard.
  - unfold getSessionIdState. one_call Hguard.
  - unfold getPresignedUrl. one_call Hguard.
  - unfold saveUploadedFile. one_call Hguard.
  - unfold _getFileState. one_call Hguard.
  - unfold _getFileRevokeState. one_call Hguard.
Qed.

Lemma authenticated_methods_make_one_call_witness :
  one_call_under "sid-0" (world_with_session "sid-0")
    (getTerminals (accepting 200) (world_with_session "sid-0")).
Proof.
  exact (proj1 (authenticated_methods_make_one_call (accepting 200)
                  (world_with_session "sid-0") "sid-0" eq_refl)).
Defined.

(** ** [login], step by step *)

Lemma _getSessionId_run (E : Env) (userToken : option string) (w : world) :
  _getSessionId E userToken w
  = match settle_call (fetch E TString (calls w)
            (_getSessionId_request (client w) userToken)) with
    | inl err => (inl err, logged w (_getSessionId_request (client w) userToken))
    | inr data =>
        (inr tt,
         {| client := set_sessionId (client w) (Some data);
            calls := (calls w ++ [_getSessionId_request (client w) userToken])%list |})
    end.
Proof.
  unfold _getSessionId, bind, get_this. rewrite _callApi_settles.
  destruct (settle_call _); reflexivity.
Qed.

Lemma _login_run (E : Env) (email password : string) (w : world) :
  _login E email password w
  = match session_guard (client w) with
    | inl err => (inl err, w)
    | inr sid =>
        match settle_call (fetch E TLogin (calls w)
                (exchange_request E w sid email password)) with
        | inl err => (inl err, logged w (exchange_request E w sid email password))
        | inr d => (inr tt, after_exchange E w sid email password d)
        end
    end.
Proof.
  unfold _login, bind, require_sessionId, get_this, _generateSignedToken,
    bind, get_this, get_calls, ret.
  destruct (session_guard (client w)) as [err|sid]; [reflexivity|].
  rewrite _callApi_settles. unfold exchange_request.
  destruct (settle_call _); reflexivity.
Qed.

Lemma login_run (E : Env) (email password : string) (w : world) :
  email <> "" -> password <> "" ->
  login E (Some email) (Some password) w
  = match settle_call (fetch E TString (calls w)
            (_getSessionId_request (client w) None)) with
    | inl err => (inl err, logged w (_getSessionId_request (client w) None))
    | inr sid1 =>
        let w1 := after_acquisition w sid1 in
        match session_guard (client w1) with
        | inl err => (inl err, w1)
        | inr sid =>
            match settle_call (fetch E TLogin (calls w1)
                    (exchange_request E w1 sid email password)) with
            | inl err =>
                (inl err, logged w1 (exchange_request E w1 sid email password))
            | inr d =>
                _getSessionId E (Some (userToken d))
                  (after_exchange E w1 sid email password d)
            end
        end
    end.
Proof.
  intros He Hp. rewrite (login_valid E email password w He Hp).
  unfold bind at 1. rewrite _getSessionId_run.
  destruct (settle_call _) as [err|sid1]; [reflexivity|].
  unfold after_acquisition. cbv zeta.
  unfold bind at 1. rewrite _login_run.
  change (dval TString) with string in *.
  match goal with
  | |- context [session_guard ?c] => destruct (session_guard c) as [err|sid]
  end; [reflexivity|].
  change (dval TLogin) with UhaleLogin in *.
  destruct (settle_call _) as [err|d]; [reflexivity|].
  unfold bind, get_this. reflexivity.
Qed.

(** When the anonymous acquisition fails, [login] fails with the same error
    after that single request: no credential exchange is sent, and the
    client keeps the session identifier and user it had. *)
Theorem login_stops_at_failed_acquisition (E : Env) (email password : string)
    (w : world) (err : error) :
  email <> "" -> password <> "" ->
  settle_call (fetch E TString (calls w) (_getSessionId_request (client w) None))
    = inl err ->
  login E (Some email) (Some password) w
  = (inl err, logged w (_getSessionId_request (client w) None)).
Proof.
  intros He Hp Hacq. rewrite (login_run E email password w He Hp).
  now rewrite Hacq.
Qed.

Lemma login_stops_at_failed_acquisition_witness :
  login unreachable (Some "a@b.c") (Some "pw") fresh_world
  = (inl NetworkError,
     logged fresh_world (_getSessionId_request (client fresh_world) None)).
Proof.
  apply (login_stops_at_failed_acquisition unreachable "a@b.c" "pw" fresh_world);
    [discriminate | discriminate | reflexivity].
Defined.

(** When the anonymous acquisition answers with an empty identifier, the
    identifier is stored, the guard of the credential exchange takes it for
    no session, and [login] fails with [PreconditionError] after that single
    request. *)
Theorem login_stops_at_empty_session (E : Env) (email password : string)
    (w : world) :
  email <> "" -> password <> "" ->
  settle_call (fetch E TString (calls w) (_getSessionId_request (client w) None))
    = inr "" ->
  login E (Some email) (Some password) w
  = (inl PreconditionError, after_acquisition w "").
Proof.
  intros He Hp Hacq. rewrite (login_run E email password w He Hp).
  now rewrite Hacq.
Qed.

Lemma login_stops_at_empty_session_witness :
  login (issuing "" "tok-1") (Some "a@b.c") (Some "pw") fresh_world
  = (inl PreconditionError, after_acquisition fresh_world "") /\
  length (calls (after_acquisition fresh_world "")) = 1%nat.
Proof.
  split; [|reflexivity].
  apply (login_stops_at_empty_session (issuing "" "tok-1") "a@b.c" "pw" fresh_world);
    [discriminate | discriminate | reflexivity].
Defined.

Lemma login_reaches_last_step (E : Env) (email password sid1 : string)
    (w : world) (d : UhaleLogin) :
  email <> "" -> password <> "" ->
  settle_call (fetch E TString (calls w) (_getSessionId_request (client w) None))
    = inr sid1 ->
  sid1 <> "" ->
  settle_call (fetch E TLogin (calls (after_acquisition w sid1))
    (exchange_request E (after_acquisition w sid1) sid1 email password)) = inr d ->
  login E (Some email) (Some password) w
  = _getSessionId E (Some (userToken d))
      (after_exchange E (after_acquisition w sid1) sid1 email password d).
Proof.
  intros He Hp Hacq Hsid Hex. rewrite (login_run E email password w He Hp).
  rewrite Hacq. cbv zeta.
  unfold after_acquisition at 1. cbn [client].
  rewrite (session_guard_stored (client w) sid1 Hsid).
  now rewrite Hex.
Qed.

(** After a successful exchange the outcome of [login] is that of the last
    acquisition.  If it succeeds, [login] succeeds after exactly three
    requests and the client holds the new identifier and the user token with
    its expiry.  If it fails, [login] fails with the same error and nothing
    is rolled back: the client keeps the anonymous identifier and the user
    it has just stored. *)
Theorem login_last_step (E : Env) (email password sid1 : string) (w : world)
    (d : UhaleLogin) :
  let w1 := after_acquisition w sid1 in
  let w2 := after_exchange E w1 sid1 email password d in
  let req3 := _getSessionId_request (client w2) (Some (userToken d)) in
  email <> "" -> password <> "" ->
  settle_call (fetch E TString (calls w) (_getSessionId_request (client w) None))
    = inr sid1 ->
  sid1 <> "" ->
  settle_call (fetch E TLogin (calls w1)
    (exchange_request E w1 sid1 email password)) = inr d ->
  sessionId (client w2) = Some sid1 /\
  user (client w2)
    = Some {| token := userToken d; expiresAt := Number E (expireAt d) |} /\
  (forall sid3,
     settle_call (fetch E TString (calls w2) req3) = inr sid3 ->
     login E (Some email) (Some password) w
     = (inr tt, {| client := set_sessionId (client w2) (Some sid3);
                   calls := (calls w2 ++ [req3])%list |})) /\
  (forall err,
     settle_call (fetch E TString (calls w2) req3) = inl err ->
     login E (Some email) (Some password) w = (inl err, logged w2 req3)).
Proof.
  intros w1 w2 req3 He Hp Hacq Hsid Hex.
  split; [reflexivity|]. split; [reflexivity|].
  split; intros x Hlast;
    rewrite (login_reaches_last_step E email password sid1 w d He Hp Hacq Hsid Hex);
    fold w1; fold w2; rewrite _getSessionId_run; fold req3;
    now rewrite Hlast.
Qed.

Lemma login_last_step_witness :
  exists w3,
    login (accepting 200) (Some "a@b.c") (Some "pw") fresh_world = (inr tt, w3) /\
    sessionId (client w3) = Some "sid-1" /\
    option_map token (user (client w3)) = Some "tok-1" /\
    length (calls w3) = 3%nat.
Proof.
  destruct (login_last_step (accepting 200) "a@b.c" "pw" "sid-1" fresh_world
              {| expireAt := "1900000000";
                 userInfo := {| ui_email := "a@b.c"; ui_emailBind := "";
                                ui_fromSource := ""; ui_groupId := "";
                                ui_icon := ""; ui_id := "7"; ui_nm := "";
                                ui_userType := "" |};
                 userToken := "tok-1" |})
    as [_ [_ [Hok _]]];
    [discriminate | discriminate | reflexivity | discriminate | reflexivity |].
  eexists. split; [apply (Hok "sid-1"); reflexivity|].
  repeat split.
Defined.

(** When the exchange answers with an empty user token, the last request of
    [login] is a second anonymous acquisition: it goes to [/sessionId] and
    carries no [userToken] parameter. *)
Theorem login_empty_token (E : Env) (email password sid1 : string) (w : world)
    (d : UhaleLogin) :
  let w1 := after_acquisition w sid1 in
  let w2 := after_exchange E w1 sid1 email password d in
  email <> "" -> password <> "" ->
  settle_call (fetch E TString (calls w) (_getSessionId_request (client w) None))
    = inr sid1 ->
  sid1 <> "" ->
  settle_call (fetch E TLogin (calls w1)
    (exchange_request E w1 sid1 email password)) = inr d ->
  userToken d = "" ->
  calls (snd (login E (Some email) (Some password) w))
  = (calls w2 ++
     [{| url := apiUrl (client w) ++ "/sessionId"; params := Some [];
         method := "GET"; headers := [("sessionId", sid1)];
         req_body := NoBody |}])%list.
Proof.
  intros w1 w2 He Hp Hacq Hsid Hex Htok.
  rewrite (login_reaches_last_step E email password sid1 w d He Hp Hacq Hsid Hex).
  fold w1; fold w2. rewrite _getSessionId_calls.
  unfold _getSessionId_request. rewrite Htok. reflexivity.
Qed.

Lemma login_empty_token_witness :
  map url (calls (snd (login (issuing "sid-1" "") (Some "a@b.c") (Some "pw")
                         fresh_world)))
  = [ "https://whalephoto.zeasn.tv/photo/api/v1/web/sessionId";
      "https://saas.zeasn.tv/user/device/login";
      "https://whalephoto.zeasn.tv/photo/api/v1/web/sessionId" ].
Proof.
  rewrite (login_empty_token (issuing "sid-1" "") "a@b.c" "pw" "sid-1" fresh_world
             {| expireAt := "1900000000";
                userInfo := {| ui_email := ""; ui_emailBind := "";
                               ui_fromSource := ""; ui_groupId := "";
                               ui_icon := ""; ui_id := ""; ui_nm := "";
                               ui_userType := "" |};
                userToken := "" |});
    [reflexivity | discriminate | discriminate | reflexivity | discriminate
    | reflexivity | reflexivity].
Defined.

Lemma credentials_cases (email password : option string) :
  (email = None \/ email = Some "" \/ password = None \/ password = Some "") \/
  (exists em pw, email = Some em /\ password = Some pw /\ em <> "" /\ pw <> "").
Proof.
  destruct email as [em|]; [|left; auto].
  destruct password as [pw|]; [|left; auto].
  destruct (String.eqb_spec em ""); [subst; left; auto|].
  destruct (String.eqb_spec pw ""); [subst; left; auto|].
  right. exists em, pw. auto.
Qed.

Lemma login_invalid (E : Env) (email password : option string) (w : world) :
  email = None \/ email = Some "" \/ password = None \/ password = Some "" ->
  login E email password w = (inl ValidationError, w).
Proof.
  unfold login.
  intros [-> | [-> | [-> | ->]]]; simpl; try reflexivity; now rewrite orb_true_r.
Qed.

Lemma _getSessionId_error (E : Env) (userToken : option string) (w : world)
    (e : error) :
  fst (_getSessionId E userToken w) = inl e -> transport_error e.
Proof.
  rewrite _getSessionId_run.
  destruct (settle_call _) eqn:Hcall; [|discriminate].
  simpl. intros [= <-]. exact (settle_call_error _ _ Hcall).
Qed.

Lemma login_valid_errors (E : Env) (email password : string) (w : world)
    (e : error) :
  email <> "" -> password <> "" ->
  fst (login E (Some email) (Some password) w) = inl e ->
  e = PreconditionError \/ transport_error e.
Proof.
  intros He Hp. rewrite (login_run E email password w He Hp).
  match goal with
  | |- context [settle_call ?x] => destruct (settle_call x) as [err|sid1] eqn:Hacq
  end.
  { simpl. intros H. injection H as H. subst err. right.
    eapply settle_call_error. exact Hacq. }
  cbv zeta.
  destruct (session_guard (client (after_acquisition w sid1))) as [err|sid] eqn:Hg.
  { simpl. intros H. injection H as H. subst err. left.
    destruct (session_guard_cases (client (after_acquisition w sid1)))
      as [[_ Hbad] | [sid' [_ [_ Hok]]]]; congruence. }
  match goal with
  | |- context [settle_call ?x] => destruct (settle_call x) as [err|d] eqn:Hex
  end.
  { simpl. intros H. injection H as H. subst err. right.
    eapply settle_call_error. exact Hex. }
  intros Hlast. right. eapply _getSessionId_error. exact Hlast.
Qed.

(** [login] fails with [ValidationError] exactly when the email or the
    password is empty or absent.  With valid credentials its only failures
    are the guard's [PreconditionError] and transport errors; in no case
    does the read of [this.user!.token] fail. *)
Theorem login_error_kinds (E : Env) (email password : option string) (w : world) :
  (fst (login E email password w) = inl ValidationError <->
   (email = None \/ email = Some "" \/ password = None \/ password = Some "")) /\
  fst (login E email password w) <> inl TypeError /\
  (forall e, fst (login E email password w) = inl e ->
     e = ValidationError \/ e = PreconditionError \/ transport_error e).
Proof.
  destruct (credentials_cases email password)
    as [Hbad | [em [pw [-> [-> [He Hp]]]]]].
  - rewrite (login_invalid E email password w Hbad). simpl.
    split; [split; auto|]. split; [discriminate|].
    intros e [= <-]. now left.
  - assert (Herr := fun e => login_valid_errors E em pw w e He Hp).
    split; [split|split].
    + intros H. apply Herr in H. destruct H as [H | H]; [discriminate|].
      now apply transport_error_not_guard in H.
    + intros [H | [H | [H | H]]]; congruence.
    + intros H. apply Herr in H. destruct H as [H | H]; [discriminate|].
      now apply transport_error_not_guard in H.
    + intros e H. right. now apply Herr.
Qed.

(** [login] with valid credentials always begins with the request for an
    anonymous session, sent to [/sessionId] with the identifier the client
    holds at that moment (the empty string when it holds none) in the
    [sessionId] header; the requests made before are kept in the log. *)
Theorem login_first_request (E : Env) (email password : string) (w : world) :
  email <> "" -> password <> "" ->
  exists rest,
    calls (snd (login E (Some email) (Some password) w))
    = (calls w ++
       {| url := apiUrl (client w) ++ "/sessionId"; params := Some [];
          method := "GET";
          headers := [("sessionId", JS.nullish (sessionId (client w)) "")];
          req_body := NoBody |} :: rest)%list.
Proof.
  intros He Hp. rewrite (login_run E email password w He Hp).
  change {| url := apiUrl (client w) ++ "/sessionId"; params := Some [];
            method := "GET";
            headers := [("sessionId", JS.nullish (sessionId (client w)) "")];
            req_body := NoBody |}
    with (_getSessionId_request (client w) None).
  destruct (settle_call _) as [err|sid1]; [now exists []|].
  cbv zeta.
  destruct (session_guard (client (after_acquisition w sid1))) as [err|sid];
    [now exists []|].
  destruct (settle_call _) as [err|d].
  - eexists. unfold logged. cbn [snd calls after_acquisition].
    rewrite <- app_assoc. reflexivity.
  - rewrite _getSessionId_calls. eexists.
    unfold after_exchange, after_acquisition. cbn [calls].
    rewrite <- !app_assoc. reflexivity.
Qed.

Lemma login_first_request_witness :
  exists rest,
    calls (snd (login unreachable (Some "a@b.c") (Some "pw")
                  {| client := new_Uhale (Some {| opt_apiUrl := Some "http://x";
                                                  opt_userUrl := None;
                                                  opt_secretKey := None;
                                                  opt_accessKey := None |});
                     calls := [] |}))
    = {| url := "http://x/sessionId"; params := Some []; method := "GET";
         headers := [("sessionId", "")]; req_body := NoBody |} :: rest.
Proof.
  apply (login_first_request unreachable "a@b.c" "pw"
           {| client := new_Uhale (Some {| opt_apiUrl := Some "http://x";
                                           opt_userUrl := None;
                                           opt_secretKey := None;
                                           opt_accessKey := None |});
              calls := [] |});
    discriminate.
Defined.

(** The identifier a successful acquisition returns is the one the next
    authenticated call presents: after [_getSessionId] has stored a
    non-empty [data], [getTerminals] sends exactly one request, to
    [/terminal], whose only header is [sessionId: data]. *)
Theorem session_round_trip (E : Env) (userToken : option string) (w : world)
    (data : string) :
  settle_call (fetch E TString (calls w)
    (_getSessionId_request (client w) userToken)) = inr data ->
  data <> "" ->
  calls (snd (getTerminals E (snd (_getSessionId E userToken w))))
  = (calls w ++
     [ _getSessionId_request (client w) userToken;
       {| url := apiUrl (client w) ++ "/terminal"; params := None;
          method := "GET"; headers := [("sessionId", data)];
          req_body := NoBody |} ])%list.
Proof.
  intros Hacq Hdata. rewrite (_getSessionId_ok E userToken w data Hacq).
  cbn [snd]. unfold getTerminals, bind, require_sessionId, get_this.
  cbn [client]. rewrite (session_guard_stored (client w) data Hdata).
  rewrite _callApi_settles. unfold logged. cbn [snd calls client].
  rewrite <- app_assoc. reflexivity.
Qed.

Lemma session_round_trip_witness :
  map headers
    (calls (snd (getTerminals (accepting 200)
                   (snd (_getSessionId (accepting 200) None fresh_world)))))
  = [[("sessionId", "")]; [("sessionId", "sid-1")]].
Proof.
  rewrite (session_round_trip (accepting 200) None fresh_world "sid-1");
    [reflexivity | reflexivity | discriminate].
Defined.

(** ** [uploadFile], stage by stage *)

Lemma getPresignedUrl_run (E : Env) (w : world) (sid : string)
    (isImage : bool) (fileSize : Z) (terminalId : string)
    (offlineStorage : option bool) :
  session_guard (client w) = inr sid ->
  getPresignedUrl E isImage fileSize terminalId offlineStorage w
  = (settle_call (fetch E TPresigned (calls w)
       (getPresignedUrl_request E (client w) sid (calls w) isImage fileSize
          terminalId offlineStorage)),
     logged w (getPresignedUrl_request E (client w) sid (calls w) isImage
                 fileSize terminalId offlineStorage)).
Proof.
  intros Hguard.
  unfold getPresignedUrl, bind, require_sessionId, get_this, get_calls.
  rewrite Hguard. now rewrite _callApi_settles.
Qed.

Lemma uploadFile_run (E : Env) (w : world) (sid : string)
    (isImage : bool) (file : list Byte.byte) (fileSize : option Z)
    (terminalId : string) (subject : option string) :
  session_guard (client w) = inr sid ->
  let size := resolved_size fileSize file in
  let reqUrl :=
    getPresignedUrl_request E (client w) sid (calls w) isImage size terminalId
      None in
  uploadFile E isImage file fileSize terminalId subject w
  = match settle_call (fetch E TPresigned (calls w) reqUrl) with
    | inl err => (inl err, logged w reqUrl)
    | inr d =>
        let reqPut := put_request d file in
        let reqSave :=
          saveUploadedFile_request (client w) sid (fileUrl d) (fileId d)
            (JS.nullish subject "") size terminalId in
        match fetch E TRaw (calls w ++ [reqUrl])%list reqPut with
        | None =>
            (inl NetworkError,
             {| client := client w; calls := (calls w ++ [reqUrl; reqPut])%list |})
        | Some _ =>
            (match settle_call
                     (fetch E TString (calls w ++ [reqUrl; reqPut])%list reqSave) with
             | inl err => inl err
             | inr _ =>
                 inr (fileId d, waitForFilesUploaded (client w) [fileId d] None)
             end,
             {| client := client w;
                calls := (calls w ++ [reqUrl; reqPut; reqSave])%list |})
        end
    end.
Proof.
  intros Hguard size reqUrl.
  unfold uploadFile. cbv zeta. fold (resolved_size fileSize file). fold size.
  unfold bind at 1. unfold require_sessionId at 1. rewrite Hguard.
  unfold bind at 1.
  rewrite (getPresignedUrl_run E w sid isImage size terminalId None Hguard).
  fold reqUrl.
  destruct (settle_call (fetch E TPresigned (calls w) reqUrl)) as [err|d];
    [reflexivity|].
  unfold bind at 1. unfold js_fetch at 1, logged. cbn [calls client].
  destruct (fetch E TRaw (calls w ++ [reqUrl])%list (put_request d file));
    [|now rewrite app_two].
  unfold bind at 1. rewrite (saveUploadedFile_run E _ sid); [|exact Hguard].
  unfold logged. cbn [calls client]. rewrite <- !app_assoc. cbn [app].
  destruct (settle_call _); reflexivity.
Qed.

(** With a session stored and a file that has a length (a Buffer), the
    first request of [uploadFile] asks for a presigned URL with the
    extension [.jpg] for an image and [.mp4] otherwise, with offline storage
    off, and with the size the caller gave or, when none was given, the
    length of the file; a size that was given is used as it is, whatever
    the length of the file.  The size is a safe integer, so that it is sent
    in full decimal. *)
Theorem uploadFile_first_request (E : Env) (w : world) (sid : string)
    (isImage : bool) (file : list Byte.byte) (fileSize : option Z)
    (terminalId : string) (subject : option string) :
  session_guard (client w) = inr sid ->
  safe_integer (resolved_size fileSize file) ->
  exists rest,
    calls (snd (uploadFile E isImage file fileSize terminalId subject w))
    = (calls w ++
       {| url := apiUrl (client w) ++ "/presignedUrl";
          params := Some
            [ ("filenameExtension", if isImage then ".jpg" else ".mp4");
              ("fileSize",
               JS.Z_toString match fileSize with
                             | Some given => given
                             | None => Z.of_nat (length file)
                             end);
              ("terminalId", terminalId);
              ("offlineStorage", "false");
              ("_t", cache_token E (calls w)) ];
          method := "GET";
          headers := [("sessionId", sid)];
          req_body := NoBody |} :: rest)%list.
Proof.
  intros Hguard _.
  rewrite (uploadFile_run E w sid isImage file fileSize terminalId subject Hguard).
  cbv zeta.
  destruct (settle_call _) as [err|d]; [now exists []|].
  destruct (fetch E TRaw _ _); eexists; cbn [snd calls]; reflexivity.
Qed.

Lemma uploadFile_first_request_witness :
  exists rest,
    map params
      (calls (snd (uploadFile (accepting 200) false [] (Some 0%Z) "t-1" None
                     (world_with_session "sid-0"))))
    = Some [ ("filenameExtension", ".mp4"); ("fileSize", "0");
             ("terminalId", "t-1"); ("offlineStorage", "false");
             ("_t", "1700000000.5-uuid") ] :: rest.
Proof.
  destruct (uploadFile_first_request (accepting 200) (world_with_session "sid-0")
              "sid-0" false [] (Some 0%Z) "t-1" None eq_refl) as [rest Hcalls].
  - unfold safe_integer, resolved_size. simpl. lia.
  - exists (map params rest). rewrite Hcalls. reflexivity.
Defined.

(** A failing stage of [uploadFile] ends the workflow.  If the request for
    the presigned URL fails, [uploadFile] fails with that error and nothing
    is uploaded.  If the PUT to the upload URL is rejected by the network,
    [uploadFile] fails after these two requests: the upload is not
    registered and no confirmation poll is started. *)
Theorem uploadFile_aborts (E : Env) (w : world) (sid : string)
    (isImage : bool) (file : list Byte.byte) (fileSize : option Z)
    (terminalId : string) (subject : option string) :
  let reqUrl :=
    getPresignedUrl_request E (client w) sid (calls w) isImage
      (resolved_size fileSize file) terminalId None in
  session_guard (client w) = inr sid ->
  (forall err,
     settle_call (fetch E TPresigned (calls w) reqUrl) = inl err ->
     uploadFile E isImage file fileSize terminalId subject w
     = (inl err, logged w reqUrl)) /\
  (forall d,
     settle_call (fetch E TPresigned (calls w) reqUrl) = inr d ->
     fetch E TRaw (calls w ++ [reqUrl])%list (put_request d file) = None ->
     uploadFile E isImage file fileSize terminalId subject w
     = (inl NetworkError,
        {| client := client w;
           calls := (calls w ++ [reqUrl; put_request d file])%list |})).
Proof.
  intros reqUrl Hguard. split.
  - intros err Hurl.
    rewrite (uploadFile_run E w sid isImage file fileSize terminalId subject Hguard).
    cbv zeta. fold reqUrl. now rewrite Hurl.
  - intros d Hurl Hput.
    rewrite (uploadFile_run E w sid isImage file fileSize terminalId subject Hguard).
    cbv zeta. fold reqUrl. rewrite Hurl. now rewrite Hput.
Qed.

Lemma uploadFile_aborts_witness :
  fst (uploadFile unreachable true [] None "t-1" None (world_with_session "sid-0"))
    = inl NetworkError /\
  length (calls (snd (uploadFile unreachable true [] None "t-1" None
                        (world_with_session "sid-0")))) = 1%nat.
Proof.
  destruct (uploadFile_aborts unreachable (world_with_session "sid-0") "sid-0"
              true [] None "t-1" None eq_refl) as [Hfail _].
  rewrite (Hfail NetworkError eq_refl). split; reflexivity.
Defined.

(** ** State tables, read backwards *)

Lemma mem_In (key : string) (names : list string) :
  JS.mem key names = true <-> In key names.
Proof.
  unfold JS.mem. rewrite existsb_exists. split.
  - intros [x [Hin Heq]]. apply String.eqb_eq in Heq. now subst x.
  - intros Hin. exists key. split; [exact Hin | apply String.eqb_refl].
Qed.

Lemma mem_not_In (key : string) (names : list string) :
  JS.mem key names = false <-> ~ In key names.
Proof.
  rewrite <- mem_In. destruct (JS.mem key names); split; congruence.
Qed.

(** [getSessionIdState] reports 'unknown' exactly for the codes that are
    neither one of "0" to "4" nor the name of a member every object inherits
    (for such a name the lookup finds the inherited member instead); in
    particular every other numeric code is 'unknown'. *)
Theorem sessionIdState_unknown (data : string) :
  (getSessionIdState_decode data = JS.VStr "unknown" <->
   ~ In data session_codes /\ ~ In data JS.Object_prototype) /\
  (JS.numeric data = true -> ~ In data session_codes ->
   getSessionIdState_decode data = JS.VStr "unknown").
Proof.
  assert (Hiff : getSessionIdState_decode data = JS.VStr "unknown" <->
                 ~ In data session_codes /\ ~ In data JS.Object_prototype).
  { unfold getSessionIdState_decode, JS.get, sessionIdState_table, session_codes.
    cbn [JS.own].
    destruct (String.eqb_spec "0" data) as [<-|H0];
      [split; [discriminate | intros [H _]; exfalso; apply H; simpl; auto]|].
    destruct (String.eqb_spec "1" data) as [<-|H1];
      [split; [discriminate | intros [H _]; exfalso; apply H; simpl; auto]|].
    destruct (String.eqb_spec "2" data) as [<-|H2];
      [split; [discriminate | intros [H _]; exfalso; apply H; simpl; auto]|].
    destruct (String.eqb_spec "3" data) as [<-|H3];
      [split; [discriminate | intros [H _]; exfalso; apply H; simpl; auto]|].
    destruct (String.eqb_spec "4" data) as [<-|H4];
      [split; [discriminate | intros [H _]; exfalso; apply H; simpl; auto 6]|].
    destruct (JS.mem data JS.Object_prototype) eqn:Hmem; cbn [JS.nullish].
    - split; [discriminate|]. intros [_ H]. exfalso. apply H.
      apply (proj1 (mem_In _ _)). exact Hmem.
    - split; [|reflexivity]. intros _. split.
      + simpl. intuition congruence.
      + apply (proj1 (mem_not_In _ _)). exact Hmem. }
  split; [exact Hiff|].
  intros Hnum Hcodes. apply Hiff. split; [exact Hcodes|].
  apply (proj1 (mem_not_In _ _)). now apply numeric_not_inherited.
Qed.

Lemma sessionIdState_unknown_witness :
  getSessionIdState_decode "17" = JS.VStr "unknown".
Proof.
  apply (proj2 (sessionIdState_unknown "17")); [reflexivity|].
  simpl. intuition discriminate.
Defined.

(** The login poll reads an answer as success exactly for the code "2", and
    as failure exactly for the codes "3" and "4", with the errors
    [Login failed] and [Login expired]; every other answer, the name of an
    inherited member included, keeps it polling. *)
Theorem login_poll_verdicts (data : string) :
  (isSuccess loggedIn_poller (p_decode loggedIn_poller data) = true <->
   data = "2") /\
  (forall e,
     isFailure loggedIn_poller (p_decode loggedIn_poller data) = Some e <->
     (data = "3" /\ e = PollFailed "failed") \/
     (data = "4" /\ e = PollFailed "expired")).
Proof.
  cbn [isSuccess isFailure p_decode loggedIn_poller].
  unfold getSessionIdState_decode, JS.get, sessionIdState_table. cbn [JS.own].
  destruct (String.eqb_spec "0" data) as [<-|H0].
  { split; [split; discriminate|].
    intros e; split; [discriminate | intros [[? _] | [? _]]; discriminate]. }
  destruct (String.eqb_spec "1" data) as [<-|H1].
  { split; [split; discriminate|].
    intros e; split; [discriminate | intros [[? _] | [? _]]; discriminate]. }
  destruct (String.eqb_spec "2" data) as [<-|H2].
  { split; [split; reflexivity|].
    intros e; split; [discriminate | intros [[? _] | [? _]]; discriminate]. }
  destruct (String.eqb_spec "3" data) as [<-|H3].
  { split; [split; discriminate|].
    intros e; split.
    - intros [= <-]. now left.
    - intros [[_ ->] | [? _]]; [reflexivity | discriminate]. }
  destruct (String.eqb_spec "4" data) as [<-|H4].
  { split; [split; discriminate|].
    intros e; split.
    - intros [= <-]. now right.
    - intros [[? _] | [_ ->]]; [discriminate | reflexivity]. }
  destruct (JS.mem data JS.Object_prototype); simpl.
  - split; [split; [discriminate | congruence]|].
    intros e; split; [discriminate | intros [[? _] | [? _]]; congruence].
  - split; [split; [discriminate | congruence]|].
    intros e; split; [discriminate | intros [[? _] | [? _]]; congruence].
Qed.

Lemma uploaded_entry (c : option string) :
  JS.is_str (fileState_of c) "uploaded" = true <->
  c = Some "2" \/ c = Some "3" \/ c = Some "uploaded".
Proof.
  destruct c as [s|].
  2:{ split; [discriminate | intros [H | [H | H]]; discriminate]. }
  unfold fileState_of, JS.get, fileState_table, JS.key_of. cbn [JS.own].
  destruct (String.eqb_spec "1" s) as [<-|H1].
  { split; [discriminate | intros [H | [H | H]]; discriminate]. }
  destruct (String.eqb_spec "2" s) as [<-|H2]; [split; auto|].
  destruct (String.eqb_spec "3" s) as [<-|H3]; [split; auto|].
  destruct (JS.mem s JS.Object_prototype) eqn:Hmem; simpl.
  - split; [discriminate|].
    intros [H | [H | H]]; injection H as ->; try congruence.
    discriminate Hmem.
  - unfold JS.is_str, JS.value_eqb. rewrite String.eqb_eq.
    split; [intros ->; auto|].
    intros [H | [H | H]]; injection H as ->; congruence.
Qed.

Lemma revoked_entry (c : option string) :
  JS.is_str (fileRevokeState_of c) "revoked" = true <-> c = Some "2".
Proof.
  destruct c as [s|]; [|split; discriminate].
  unfold fileRevokeState_of, JS.get, fileRevokeState_table, JS.key_of.
  cbn [JS.own].
  destruct (String.eqb_spec "1" s) as [<-|H1]; [split; discriminate|].
  destruct (String.eqb_spec "2" s) as [<-|H2]; [split; auto|].
  destruct (JS.mem s JS.Object_prototype); simpl;
    (split; [discriminate | intros [= ->]; congruence]).
Qed.

Lemma every_is_decoded (lit : string) (f : option string -> JS.value)
    (good : option string -> Prop) (data : list (string * option string)) :
  (forall c, JS.is_str (f c) lit = true <-> good c) ->
  every_is lit (map (fun '(fileId, fileState) => (fileId, f fileState)) data) = true
  <-> Forall (fun entry => good (snd entry)) data.
Proof.
  intros Hf. unfold every_is. induction data as [|[fileId c] rest IH]; simpl.
  - split; [constructor | reflexivity].
  - rewrite andb_true_iff, IH, Hf. split.
    + intros [Hc Hrest]. now constructor.
    + intros H. inversion H; subst. auto.
Qed.

(** The upload-confirmation poll counts an answer as success exactly when
    every entry of the answer carries the code "2", "3" or the string
    "uploaded" itself (an unrecognized code is its own state); entries are
    not matched against the identifiers asked for, so an answer with no
    entry is a success. *)
Theorem upload_success (fileIds : list string) (data : list (string * option string)) :
  isSuccess (uploaded_poller fileIds) (p_decode (uploaded_poller fileIds) data) = true
  <-> Forall (fun entry =>
                snd entry = Some "2" \/ snd entry = Some "3" \/
                snd entry = Some "uploaded") data.
Proof.
  cbn [isSuccess p_decode uploaded_poller]. unfold _getFileState_decode.
  apply (every_is_decoded "uploaded" fileState_of
           (fun c => c = Some "2" \/ c = Some "3" \/ c = Some "uploaded")).
  exact uploaded_entry.
Qed.

(** The revocation-confirmation poll counts an answer as success exactly
    when every entry of the answer carries the code "2"; an answer with no
    entry is a success, and the string "revoked" itself is not. *)
Theorem revoke_success (fileIds : list string) (data : list (string * option string)) :
  isSuccess (revoked_poller fileIds) (p_decode (revoked_poller fileIds) data) = true
  <-> Forall (fun entry => snd entry = Some "2") data.
Proof.
  cbn [isSuccess p_decode revoked_poller]. unfold _getFileRevokeState_decode.
  apply (every_is_decoded "revoked" fileRevokeState_of (fun c => c = Some "2")).
  exact revoked_entry.
Qed.

(** ** The polling loops: what an answer does *)

Lemma probe_result_error (P : poller) (r : option (response (dval (p_ty P))))
    (e : error) :
  probe_result P r = inl e -> transport_error e.
Proof.
  unfold probe_result. destruct (settle_call r) as [err|data] eqn:Hcall;
    [|discriminate].
  intros [= <-]. eapply settle_call_error. exact Hcall.
Qed.

Lemma settled_for_good (P : poller) (this : Uhale)
    (evs : list (event (dval (p_ty P)))) (s s' : poll) (o : settlement) :
  interval s = false -> promise s = Some o ->
  run P this s evs = Some s' ->
  attempts s' = attempts s /\ sent s' = sent s /\ promise s' = Some o.
Proof.
  intros Hoff Hp Hrun.
  destruct (cleared_is_final P this evs s s' Hoff Hrun)
    as [Ha [Hs [_ Hfinal]]].
  auto.
Qed.

(** While the promise of a poll is pending, the answer to an outstanding
    probe that is an error of the transport rejects the promise with that
    very error and clears the timer, whatever the attempt count and the
    budget; no probe is started afterwards. *)
Theorem poll_probe_error (P : poller) (this : Uhale)
    (s : poll) (probe : nat) (r : option (response (dval (p_ty P)))) (e : error) :
  promise s = None ->
  is_outstanding probe s = true ->
  probe_result P r = inl e ->
  exists s',
    step P this s (Answer probe r) = Some s' /\
    promise s' = Some (Rejected e) /\
    interval s' = false /\
    transport_error e /\
    forall evs s'',
      run P this s' evs = Some s'' ->
      attempts s'' = attempts s /\ sent s'' = sent s /\
      promise s'' = Some (Rejected e).
Proof.
  intros Hpending Hout Hres.
  eexists. split; [simpl; rewrite Hout, Hres; reflexivity|].
  unfold resume, settle, clearInterval.
  cbn [promise interval attempts outstanding sent]. rewrite Hpending.
  split; [reflexivity|]. split; [reflexivity|].
  split; [exact (probe_result_error P r e Hres)|].
  intros evs s'' Hrun.
  eapply (settled_for_good P this evs _ s'' (Rejected e)) in Hrun;
    [exact Hrun | reflexivity | reflexivity].
Qed.

Lemma poll_probe_error_witness :
  exists s',
    run loggedIn_poller signed_in (waitForLoggedIn signed_in None)
      [Answer 1 None] = Some s' /\
    promise s' = Some (Rejected NetworkError) /\
    step loggedIn_poller signed_in s' Tick = None.
Proof.
  destruct (poll_probe_error loggedIn_poller signed_in
              (waitForLoggedIn signed_in None) 1 None NetworkError
              eq_refl eq_refl eq_refl) as [s' [Hstep [Hp [Hoff _]]]].
  exists s'. split.
  - cbn [run]. now rewrite Hstep.
  - split; [exact Hp|]. simpl. now rewrite Hoff.
Defined.

(** While the promise of a poll is pending, the answer to an outstanding
    probe that passes the success test resolves the promise and clears the
    timer even when the attempt budget is already used up: success is
    tested before the budget.  No probe is started afterwards. *)
Theorem poll_success_before_budget (P : poller) (this : Uhale)
    (s : poll) (probe : nat)
    (r : option (response (dval (p_ty P)))) (observed : p_state P) :
  promise s = None ->
  is_outstanding probe s = true ->
  probe_result P r = inr observed ->
  isSuccess P observed = true ->
  exists s',
    step P this s (Answer probe r) = Some s' /\
    promise s' = Some Resolved /\
    interval s' = false /\
    forall evs s'',
      run P this s' evs = Some s'' ->
      attempts s'' = attempts s /\ sent s'' = sent s /\
      promise s'' = Some Resolved.
Proof.
  intros Hpending Hout Hres Hsucc.
  eexists. split; [simpl; rewrite Hout, Hres; reflexivity|].
  unfold resume. rewrite Hsucc. unfold settle, clearInterval.
  cbn [promise interval attempts outstanding sent]. rewrite Hpending.
  split; [reflexivity|]. split; [reflexivity|].
  intros evs s'' Hrun.
  eapply (settled_for_good P this evs _ s'' Resolved) in Hrun;
    [exact Hrun | reflexivity | reflexivity].
Qed.

Lemma poll_success_before_budget_witness :
  exists s',
    run (uploaded_poller ["file-1"]) signed_in
      (waitForFilesUploaded signed_in ["file-1"] (Some (Finite 1)))
      [Answer 1 (file_codes ["file-1"] [("file-1", Some "3")])] = Some s' /\
    promise s' = Some Resolved.
Proof.
  destruct (poll_success_before_budget (uploaded_poller ["file-1"]) signed_in
              (waitForFilesUploaded signed_in ["file-1"] (Some (Finite 1))) 1
              (file_codes ["file-1"] [("file-1", Some "3")])
              [("file-1", JS.VStr "uploaded")]
              eq_refl eq_refl eq_refl eq_refl) as [s' [Hstep [Hp _]]].
  exists s'. split; [|exact Hp]. cbn [run]. now rewrite Hstep.
Defined.

(** A poll started on a client without a usable session (none, or the empty
    string) counts one attempt, sends nothing, and has its promise rejected
    with [PreconditionError] and its timer cleared when it is returned;
    no event can follow. *)
Theorem poll_stopped_by_guard (P : poller) (this : Uhale) (maxAttempts : budget) :
  JS.truthy_opt (sessionId this) = false ->
  start P this maxAttempts = stopped_poll maxAttempts /\
  forall evs s,
    run P this (start P this maxAttempts) evs = Some s ->
    evs = [] /\ s = stopped_poll maxAttempts.
Proof.
  intros Hfalsy.
  assert (Hstart : start P this maxAttempts = stopped_poll maxAttempts).
  { unfold start, check.
    destruct (session_guard_cases this) as [[_ ->] | [sid [Hs [Hne _]]]];
      [reflexivity|].
    rewrite Hs in Hfalsy. simpl in Hfalsy.
    rewrite (truthy_nonempty sid Hne) in Hfalsy. discriminate. }
  split; [exact Hstart|].
  intros evs s. rewrite Hstart.
  destruct evs as [|[|probe r] rest]; simpl.
  - intros [= <-]. auto.
  - discriminate.
  - discriminate.
Qed.

Lemma poll_stopped_by_guard_witness :
  waitForFilesRevoked (set_sessionId (new_Uhale None) (Some "")) ["file-1"] None
  = stopped_poll Infinity.
Proof.
  exact (proj1 (poll_stopped_by_guard (revoked_poller ["file-1"])
                  (set_sessionId (new_Uhale None) (Some "")) Infinity eq_refl)).
Defined.

(** ** The polling loops: invariants of every schedule *)

Lemma exhausted_mono (a b : nat) (maxAttempts : budget) :
  exhausted a maxAttempts = true -> a <= b -> exhausted b maxAttempts = true.
Proof.
  destruct maxAttempts as [n|]; simpl; [|discriminate].
  rewrite !Z.leb_le. lia.
Qed.

Lemma settle_justified (o : settlement) (s : poll) :
  o <> Rejected PollTimeout ->
  timeout_justified s ->
  timeout_justified (settle o (clearInterval s)).
Proof.
  unfold timeout_justified. simpl. intros Ho Hs.
  destruct (promise s) as [first|]; [exact Hs | congruence].
Qed.

Lemma resume_justified (P : poller) (result : error + p_state P) (s : poll) :
  never_fails_with_timeout P ->
  result <> inl PollTimeout ->
  timeout_justified s ->
  timeout_justified (resume P result s).
Proof.
  intros Hfail Hres Hs. unfold resume.
  destruct result as [e|observed].
  - apply settle_justified; [congruence | exact Hs].
  - destruct (isSuccess P observed);
      [apply settle_justified; [discriminate | exact Hs]|].
    destruct (isFailure P observed) as [e|] eqn:He.
    + apply settle_justified; [|exact Hs].
      intros [= ->]. exact (Hfail observed He).
    + destruct (exhausted (attempts s) (max_attempts s)) eqn:Hex; [|exact Hs].
      intros _. exact Hex.
Qed.

Lemma check_justified (P : poller) (this : Uhale) (s : poll) :
  never_fails_with_timeout P ->
  timeout_justified s ->
  timeout_justified (check P this s).
Proof.
  intros Hfail Hs.
  assert (Hgrow : forall o,
    timeout_justified
      {| max_attempts := max_attempts s;
         attempts := S (attempts s); interval := interval s; promise := promise s;
         outstanding := o; sent := sent s |}).
  { intros o Hp. simpl in *. apply (exhausted_mono (attempts s)); [auto | lia]. }
  unfold check. destruct (session_guard this) as [e|sid] eqn:Hg.
  - apply resume_justified; [exact Hfail | | apply Hgrow].
    apply session_guard_error in Hg. congruence.
  - intros Hp. simpl in *. apply (exhausted_mono (attempts s)); [auto | lia].
Qed.

Lemma run_justified (P : poller) (this : Uhale)
    (evs : list (event (dval (p_ty P)))) : forall s s',
  never_fails_with_timeout P ->
  timeout_justified s ->
  run P this s evs = Some s' ->
  timeout_justified s'.
Proof.
  induction evs as [|ev rest IH]; simpl; intros s s' Hfail Hs Hrun.
  - now injection Hrun as <-.
  - destruct (step P this s ev) as [s1|] eqn:Hstep; [|discriminate].
    apply (IH s1 s' Hfail); [|exact Hrun].
    destruct ev as [|probe r]; simpl in Hstep.
    + destruct (interval s); [|discriminate]. injection Hstep as <-.
      now apply check_justified.
    + destruct (is_outstanding probe s); [|discriminate]. injection Hstep as <-.
      apply resume_justified; [exact Hfail | | exact Hs].
      intros Hbad. apply probe_result_error in Hbad.
      now apply transport_error_not_guard in Hbad.
Qed.

(** On every schedule, overlapping probes included, a poll whose failure
    test never yields a timeout itself declares [PollTimeout] only when at
    least [maxAttempts] probes have been issued; with the budget [Infinity]
    it never declares one. *)
Theorem timeout_only_with_budget_used (P : poller) (this : Uhale)
    (maxAttempts : budget) (evs : list (event (dval (p_ty P)))) (s : poll) :
  never_fails_with_timeout P ->
  run P this (start P this maxAttempts) evs = Some s ->
  promise s = Some (Rejected PollTimeout) ->
  match maxAttempts with
  | Finite n => (n <= Z.of_nat (attempts s))%Z
  | Infinity => False
  end.
Proof.
  intros Hfail Hrun Hto.
  assert (Hs : timeout_justified s).
  { apply (run_justified P this evs (start P this maxAttempts) s Hfail);
      [|exact Hrun].
    unfold start. apply check_justified; [exact Hfail|]. discriminate. }
  specialize (Hs Hto).
  rewrite (run_budget P this evs _ s Hrun), start_budget in Hs.
  destruct maxAttempts as [n|]; simpl in Hs.
  - now apply Z.leb_le.
  - discriminate.
Qed.

Lemma timeout_only_with_budget_used_witness :
  (3 <= Z.of_nat 4)%Z.
Proof.
  apply (timeout_only_with_budget_used (uploaded_poller ["file-1"]) signed_in
           (Finite 3)
           [Tick; Tick; Tick;
            Answer 1 (file_codes ["file-1"] [("file-1", Some "1")])]
           {| max_attempts := Finite 3;
              attempts := 4; interval := false;
              promise := Some (Rejected PollTimeout);
              outstanding :=
                [ (2%nat, _getFileState_request signed_in "sid-0" ["file-1"]);
                  (3%nat, _getFileState_request signed_in "sid-0" ["file-1"]);
                  (4%nat, _getFileState_request signed_in "sid-0" ["file-1"]) ];
              sent := repeat (_getFileState_request signed_in "sid-0" ["file-1"]) 4 |}).
  - intros observed. discriminate.
  - reflexivity.
  - reflexivity.
Defined.

Lemma forget_In (probe : nat) (l : list (nat * request)) (entry : nat * request) :
  In entry (forget probe l) -> In entry l.
Proof.
  induction l as [|[k req] rest IH]; simpl; [auto|].
  destruct (Nat.eqb k probe); simpl; intuition.
Qed.

Lemma forget_Forall (Q : nat * request -> Prop) (probe : nat)
    (l : list (nat * request)) :
  Forall Q l -> Forall Q (forget probe l).
Proof.
  rewrite !Forall_forall. intros H entry Hin. apply H.
  now apply forget_In in Hin.
Qed.

Lemma forget_NoDup (probe : nat) (l : list (nat * request)) :
  NoDup (map fst l) -> NoDup (map fst (forget probe l)).
Proof.
  induction l as [|[k req] rest IH]; simpl; [auto|].
  intros H. inversion H as [|? ? Hnotin Hrest]; subst.
  destruct (Nat.eqb k probe); [now apply IH|].
  simpl. constructor; [|now apply IH].
  intros Hin. apply Hnotin.
  apply in_map_iff in Hin. destruct Hin as [entry [Hfst Hin]].
  apply in_map_iff. exists entry. split; [exact Hfst|].
  now apply forget_In in Hin.
Qed.

Lemma NoDup_snoc {A : Type} (l : list A) (x : A) :
  NoDup l -> ~ In x l -> NoDup (l ++ [x]).
Proof.
  induction l as [|a rest IH]; simpl; intros Hl Hx.
  - constructor; [auto | constructor].
  - inversion Hl as [|? ? Ha Hrest]; subst. constructor.
    + rewrite in_app_iff. simpl. intuition.
    + apply IH; [exact Hrest | intuition].
Qed.

Lemma resume_counts (P : poller) (req : request)
    (result : error + p_state P) (s : poll) :
  poll_counts req s -> poll_counts req (resume P result s).
Proof.
  unfold poll_counts.
  rewrite (resume_attempts P), (resume_sent P),
    (resume_outstanding P).
  auto.
Qed.

Lemma check_counts (P : poller) (this : Uhale) (sid : string) (s : poll) :
  session_guard this = inr sid ->
  poll_counts (p_request P this sid) s ->
  poll_counts (p_request P this sid) (check P this s).
Proof.
  intros Hguard [Hsent [Hall Hnodup]]. unfold check. rewrite Hguard.
  unfold poll_counts. cbn [attempts sent outstanding].
  split; [|split].
  - rewrite Hsent. simpl. now rewrite repeat_cons.
  - apply Forall_app. split.
    + eapply Forall_impl; [|exact Hall]. intros entry [Hk Hreq]. split; [lia | exact Hreq].
    + constructor; [|constructor]. simpl. split; [lia | reflexivity].
  - rewrite map_app. simpl. apply NoDup_snoc; [exact Hnodup|].
    intros Hin. apply in_map_iff in Hin. destruct Hin as [entry [Hfst Hin]].
    rewrite Forall_forall in Hall. destruct (Hall entry Hin) as [Hk _]. lia.
Qed.

Lemma run_counts (P : poller) (this : Uhale)
    (sid : string) (evs : list (event (dval (p_ty P)))) : forall s s',
  session_guard this = inr sid ->
  poll_counts (p_request P this sid) s ->
  run P this s evs = Some s' ->
  poll_counts (p_request P this sid) s'.
Proof.
  induction evs as [|ev rest IH]; simpl; intros s s' Hguard Hs Hrun.
  - now injection Hrun as <-.
  - destruct (step P this s ev) as [s1|] eqn:Hstep; [|discriminate].
    apply (IH s1 s' Hguard); [|exact Hrun].
    destruct ev as [|probe r]; simpl in Hstep.
    + destruct (interval s); [|discriminate]. injection Hstep as <-.
      now apply check_counts.
    + destruct (is_outstanding probe s); [|discriminate]. injection Hstep as <-.
      apply resume_counts. destruct Hs as [Hsent [Hall Hnodup]].
      unfold poll_counts. cbn [attempts sent outstanding].
      split; [exact Hsent|]. split;
        [now apply forget_Forall | now apply forget_NoDup].
Qed.

(** On every schedule of a poll run by a client holding a session, each
    counted attempt has sent one request and all of them are the same
    request; the probes awaiting an answer are distinct attempts among those
    made so far, so never more than [attempts] are outstanding. *)
Theorem poll_counts_requests (P : poller) (this : Uhale) (maxAttempts : budget)
    (sid : string) (evs : list (event (dval (p_ty P)))) (s : poll) :
  session_guard this = inr sid ->
  run P this (start P this maxAttempts) evs = Some s ->
  sent s = repeat (p_request P this sid) (attempts s) /\
  Forall (fun entry => 1 <= fst entry <= attempts s /\
                       snd entry = p_request P this sid) (outstanding s) /\
  NoDup (map fst (outstanding s)) /\
  length (outstanding s) <= attempts s.
Proof.
  intros Hguard Hrun.
  assert (Hs : poll_counts (p_request P this sid) s).
  { apply (run_counts P this sid evs (start P this maxAttempts) s Hguard);
      [|exact Hrun].
    unfold start. apply check_counts; [exact Hguard|].
    repeat split; constructor. }
  destruct Hs as [Hsent [Hall Hnodup]].
  split; [exact Hsent|]. split; [exact Hall|]. split; [exact Hnodup|].
  rewrite <- (length_map fst).
  assert (Hincl : incl (map fst (outstanding s)) (seq 1 (attempts s))).
  { intros k Hin. apply in_map_iff in Hin. destruct Hin as [entry [<- Hin]].
    rewrite Forall_forall in Hall. destruct (Hall entry Hin) as [Hk _].
    apply in_seq. lia. }
  apply (NoDup_incl_length Hnodup) in Hincl. now rewrite length_seq in Hincl.
Qed.

Lemma poll_counts_requests_witness :
  exists s,
    run loggedIn_poller signed_in (waitForLoggedIn signed_in None)
      [Tick; Answer 1 (session_code "1"); Tick] = Some s /\
    length (sent s) = 3%nat /\
    map fst (outstanding s) = [2; 3]%nat.
Proof.
  eexists. split; [reflexivity|].
  match goal with
  | |- length (sent ?s) = _ /\ _ =>
      destruct (poll_counts_requests loggedIn_poller signed_in (Finite 5) "sid-0"
                  [Tick; Answer 1 (session_code "1"); Tick] s eq_refl eq_refl)
        as [Hsent _]
  end.
  split; [rewrite Hsent; reflexivity | reflexivity].
Defined.

(** ** Polls without budget *)

Lemma resume_unbounded (P : poller) (result : error + p_state P) (s : poll) :
  (forall observed, isFailure P observed = None) ->
  max_attempts s = Infinity ->
  (forall e, result = inl e -> e = PreconditionError \/ transport_error e) ->
  (forall o, promise s = Some o -> file_poll_settlement o) ->
  forall o, promise (resume P result s) = Some o -> file_poll_settlement o.
Proof.
  intros Hfail Hinf Hres Hs o. unfold resume.
  destruct result as [e|observed].
  - simpl. destruct (promise s) as [first|] eqn:Hp; [intros [= <-]; now apply Hs|].
    intros [= <-]. destruct (Hres e eq_refl) as [-> | He].
    + right; now left.
    + right; right. now exists e.
  - destruct (isSuccess P observed).
    + simpl. destruct (promise s) as [first|] eqn:Hp;
        [intros [= <-]; now apply Hs | intros [= <-]; now left].
    + rewrite Hfail, Hinf. simpl. apply Hs.
Qed.

Lemma check_unbounded (P : poller) (this : Uhale) (s : poll) :
  (forall observed, isFailure P observed = None) ->
  max_attempts s = Infinity ->
  (forall o, promise s = Some o -> file_poll_settlement o) ->
  forall o, promise (check P this s) = Some o -> file_poll_settlement o.
Proof.
  intros Hfail Hinf Hs. unfold check.
  destruct (session_guard this) as [e|sid] eqn:Hg; [|exact Hs].
  apply resume_unbounded; [exact Hfail | exact Hinf | | exact Hs].
  intros e' [= <-]. left. now apply (session_guard_error this).
Qed.

Lemma run_unbounded (P : poller) (this : Uhale)
    (evs : list (event (dval (p_ty P)))) : forall s s',
  (forall observed, isFailure P observed = None) ->
  max_attempts s = Infinity ->
  (forall o, promise s = Some o -> file_poll_settlement o) ->
  run P this s evs = Some s' ->
  forall o, promise s' = Some o -> file_poll_settlement o.
Proof.
  induction evs as [|ev rest IH]; simpl; intros s s' Hfail Hinf Hs Hrun.
  - now injection Hrun as <-.
  - destruct (step P this s ev) as [s1|] eqn:Hstep; [|discriminate].
    destruct ev as [|probe r]; simpl in Hstep.
    + destruct (interval s); [|discriminate]. injection Hstep as <-.
      apply (IH (check P this s) s' Hfail); [| |exact Hrun].
      * now rewrite check_budget.
      * now apply check_unbounded.
    + destruct (is_outstanding probe s); [|discriminate]. injection Hstep as <-.
      match type of Hrun with
      | run _ _ ?s1 _ = _ => apply (IH s1 s' Hfail); [| |exact Hrun]
      end.
      * now rewrite resume_budget.
      * apply resume_unbounded; [exact Hfail | exact Hinf | | exact Hs].
        intros e He. right. now apply (probe_result_error P r).
Qed.

Lemma start_unbounded (P : poller) (this : Uhale) :
  (forall observed, isFailure P observed = None) ->
  forall o, promise (start P this Infinity) = Some o -> file_poll_settlement o.
Proof.
  intros Hfail. unfold start.
  apply check_unbounded; [exact Hfail | reflexivity | discriminate].
Qed.

(** Called without a budget, [waitForFilesUploaded] and
    [waitForFilesRevoked] never time out and have no failure state: on every
    schedule their promise, once settled, is resolved, or rejected with the
    guard's [PreconditionError] or with an error of the transport. *)
Theorem file_polls_settlements (this : Uhale) (fileIds : list string) :
  (forall evs s o,
     run (uploaded_poller fileIds) this
       (waitForFilesUploaded this fileIds None) evs = Some s ->
     promise s = Some o -> file_poll_settlement o) /\
  (forall evs s o,
     run (revoked_poller fileIds) this
       (waitForFilesRevoked this fileIds None) evs = Some s ->
     promise s = Some o -> file_poll_settlement o).
Proof.
  split; intros evs s o Hrun.
  - apply (run_unbounded (uploaded_poller fileIds) this evs
             (waitForFilesUploaded this fileIds None) s
             (fun _ => eq_refl)); [| |exact Hrun].
    + unfold waitForFilesUploaded. apply start_budget.
    + apply (start_unbounded (uploaded_poller fileIds) this (fun _ => eq_refl)).
  - apply (run_unbounded (revoked_poller fileIds) this evs
             (waitForFilesRevoked this fileIds None) s
             (fun _ => eq_refl)); [| |exact Hrun].
    + unfold waitForFilesRevoked. apply start_budget.
    + apply (start_unbounded (revoked_poller fileIds) this (fun _ => eq_refl)).
Qed.

Lemma run_keeps_polling (P : poller) (this : Uhale) (sid : string)
    (evs : list (event (dval (p_ty P)))) : forall s s',
  session_guard this = inr sid ->
  Forall (answers_keep_polling P) evs ->
  max_attempts s = Infinity ->
  promise s = None /\ interval s = true ->
  run P this s evs = Some s' ->
  promise s' = None /\ interval s' = true.
Proof.
  induction evs as [|ev rest IH]; simpl; intros s s' Hguard Hall Hinf Hs Hrun.
  - now injection Hrun as <-.
  - inversion Hall as [|? ? Hev Hrest]; subst.
    destruct (step P this s ev) as [s1|] eqn:Hstep; [|discriminate].
    destruct ev as [|probe r]; simpl in Hstep.
    + destruct Hs as [Hp Hi]. rewrite Hi in Hstep. injection Hstep as <-.
      apply (IH (check P this s) s' Hguard Hrest); [| |exact Hrun].
      * now rewrite check_budget.
      * unfold check. rewrite Hguard. split; [exact Hp | exact Hi].
    + destruct (is_outstanding probe s); [|discriminate]. injection Hstep as <-.
      destruct Hev as [observed [Hres [Hsucc Hfail]]].
      match type of Hrun with
      | run _ _ ?s1 _ = _ => apply (IH s1 s' Hguard Hrest); [| |exact Hrun]
      end.
      * now rewrite resume_budget.
      * rewrite Hres. unfold resume. rewrite Hsucc, Hfail.
        cbn [max_attempts]. rewrite Hinf. exact Hs.
Qed.

(** A poll without budget run by a client holding a session polls for as
    long as the answers are neither success nor failure: on every schedule
    of such answers, however long, the promise is still pending and the
    timer still armed. *)
Theorem unbounded_poll_keeps_polling (P : poller) (this : Uhale) (sid : string)
    (evs : list (event (dval (p_ty P)))) (s : poll) :
  session_guard this = inr sid ->
  Forall (answers_keep_polling P) evs ->
  run P this (start P this Infinity) evs = Some s ->
  promise s = None /\ interval s = true.
Proof.
  intros Hguard Hall Hrun.
  apply (run_keeps_polling P this sid evs (start P this Infinity) s Hguard Hall);
    [| |exact Hrun].
  - apply start_budget.
  - unfold start, check. rewrite Hguard. split; reflexivity.
Qed.

Lemma unbounded_poll_keeps_polling_witness :
  let pending := file_codes ["file-1"] [("file-1", Some "1")] in
  exists s,
    run (uploaded_poller ["file-1"]) signed_in
      (waitForFilesUploaded signed_in ["file-1"] None)
      [Answer 1 pending; Tick; Tick; Answer 3 pending; Answer 2 pending] = Some s /\
    promise s = None /\ attempts s = 3%nat.
Proof.
  intros pending. eexists. split; [reflexivity|].
  match goal with
  | |- promise ?s = None /\ _ =>
      destruct (unbounded_poll_keeps_polling (uploaded_poller ["file-1"])
                  signed_in "sid-0"
                  [Answer 1 pending; Tick; Tick; Answer 3 pending; Answer 2 pending]
                  s eq_refl) as [Hp _]
  end.
  - repeat constructor; eexists; (split; [reflexivity|]); split; reflexivity.
  - reflexivity.
  - split; [exact Hp | reflexivity].
Defined.
